(** * oneBadApple: a token ring of processes connected by pipes

    Shallow embedding of [oneBadApple.c].  The C library calls the program
    relies on ([strtol], [fgets], [strncpy], [scanf("%d")], [read], [write],
    [wait]) are modelled first, then the program's own functions in the order
    of the source file, then a ring-level composition of the node loops. *)

From Stdlib Require Import ZArith Lia Ascii String.
From stdpp Require Import base numbers option list gmap strings.

Local Open Scope Z_scope.

(** ** Constants and the token record *)

Definition MAX_K : Z := 64.
Definition MAX_TEXT : nat := 1024.
Definition DEST_EMPTY : Z := -1.

Definition INT_MIN : Z := - 2 ^ 31.
Definition INT_MAX : Z := 2 ^ 31 - 1.
Definition LONG_MIN : Z := - 2 ^ 63.
Definition LONG_MAX : Z := 2 ^ 63 - 1.

Definition NUL : ascii := "000"%char.
Definition NL : ascii := "010"%char.

(** [char text[MAX_TEXT]] is kept as the whole buffer; what [printf("%s")]
    shows of it is [c_str]. *)
Record apple_t := mk_apple {
  dest : Z;
  origin : Z;
  text : list ascii
}.

(** ** C strings *)

(** A literal of the source, as the characters before its terminator. *)
Definition lit (s : string) : list ascii := list_ascii_of_string s.

(** The string held by a buffer: the characters before the first NUL. *)
Fixpoint c_str (buf : list ascii) : list ascii :=
  match buf with
  | [] => []
  | c :: r => if Ascii.eqb c NUL then [] else c :: c_str r
  end.

Definition code (c : ascii) : Z := Z.of_N (N_of_ascii c).

(** [isspace] in the C locale: space, and \t \n \v \f \r. *)
Definition isspace (c : ascii) : bool :=
  (code c =? 32) || ((9 <=? code c) && (code c <=? 13)).

Definition digit_of (c : ascii) : option Z :=
  if (48 <=? code c) && (code c <=? 57) then Some (code c - 48) else None.

Definition isdigit (c : ascii) : bool :=
  match digit_of c with Some _ => true | None => false end.

Fixpoint skip_space (s : list ascii) : list ascii :=
  match s with
  | c :: r => if isspace c then skip_space r else s
  | [] => []
  end.

(** The digit loop of [strtol]/[scanf]: accumulated value and what is left. *)
Fixpoint scan_digits (acc : Z) (s : list ascii) : Z * list ascii :=
  match s with
  | c :: r =>
      match digit_of c with
      | Some d => scan_digits (10 * acc + d) r
      | None => (acc, s)
      end
  | [] => (acc, [])
  end.

Definition scan_sign (s : list ascii) : bool * list ascii :=
  match s with
  | c :: r =>
      if Ascii.eqb c "-" then (true, r)
      else if Ascii.eqb c "+" then (false, r)
      else (false, s)
  | [] => (false, [])
  end.

Definition clamp_long (v : Z) : Z :=
  if v <? LONG_MIN then LONG_MIN else if LONG_MAX <? v then LONG_MAX else v.

(** [strtol(s, &end, 10)]: the value and [end - s].  Without a digit no
    conversion is performed and [end == s]; a value out of range of [long]
    is clamped. *)
Definition strtol (s : list ascii) : Z * nat :=
  let s1 := skip_space s in
  let '(neg, s2) := scan_sign s1 in
  let '(v, s3) := scan_digits 0 s2 in
  if (length s3 =? length s2)%nat then (0, 0%nat)
  else (clamp_long (if neg then - v else v), (length s - length s3)%nat).

(** [fgets(buf, size, stdin)] on the unread input: at most [size - 1]
    characters, stopping after a newline; NULL when the input is at its end.
    The buffer then holds the characters read up to a NUL among them. *)
Fixpoint read_line (n : nat) (inp : list ascii) : list ascii * list ascii :=
  match n, inp with
  | S n', c :: r =>
      if Ascii.eqb c NL then ([c], r)
      else let '(l, r') := read_line n' r in (c :: l, r')
  | _, _ => ([], inp)
  end.

Definition fgets (size : nat) (inp : list ascii)
  : option (list ascii * list ascii) :=
  match inp with
  | [] => None
  | _ => let '(l, r) := read_line (size - 1) inp in Some (c_str l, r)
  end.

(** [strncpy(dst, src, n)]: [n] characters are written, the string and then
    NUL padding. *)
Definition strncpy (dst src : list ascii) (n : nat) : list ascii :=
  take n (src ++ replicate n NUL) ++ drop n dst.

(** ** The program's helpers *)

(** [chomp]: [n = strlen(s); if (n && s[n-1] == '\n') s[n-1] = '\0';] *)
Definition chomp (s : list ascii) : list ascii :=
  match reverse s with
  | c :: r => if Ascii.eqb c NL then reverse r else s
  | [] => s
  end.

(** [parse_destination]: [None] is the return value -1, [Some v] is 0 with
    [*out = v]. *)
Definition parse_destination (s : list ascii) (k : Z) : option Z :=
  let '(v, e) := strtol s in
  if (e =? 0)%nat || negb (e =? length s)%nat then None
  else if (v <? 0) || (k <=? v) then None
  else Some v.

(** ** Console output and system calls observed by the model *)

Inductive log :=
| LogBanner                                         (* line 227 *)
| LogAskK                                           (* line 229 *)
| LogInvalidK                                       (* line 232 *)
| LogPerror (what : string)                         (* perror *)
| LogRingCreated (k : Z)                            (* lines 307-309 *)
| LogCtrlC                                          (* line 108 *)
| LogReturnedEmpty (id : Z)                         (* line 145 *)
| LogAskDest (hi : Z)                               (* line 151 *)
| LogInvalidDest (s : list ascii)                   (* line 168 *)
| LogAskMessage                                     (* line 174 *)
| LogInjecting (id d : Z) (txt : list ascii)        (* line 186 *)
| LogEmptyForward (id : Z)                          (* line 191 *)
| LogReceived (id from : Z) (txt : list ascii)      (* line 199 *)
| LogProcessed (id : Z)                             (* line 205 *)
| LogForwarding (id d : Z)                          (* line 209 *)
| LogExiting (id : Z).                              (* line 217 *)

(** The two ends of [pipes[j]]: index 0 is read from, index 1 written to. *)
Inductive pend := RD | WR.

Definition endpoint : Type := Z * pend.

Inductive event :=
| EvPrint (l : log)
| EvPipe (j : Z)                         (* pipe(pipes[j]) succeeded *)
| EvFork (i : Z) (pid : Z)               (* fork() of node i returned pid *)
| EvRead (fd : endpoint) (a : apple_t)   (* read_full returned 0 *)
| EvWrite (fd : endpoint) (a : apple_t)  (* write_full returned 0 *)
| EvClose (fd : endpoint)
| EvKill (pid : Z)                       (* kill(pid, SIGUSR1) *)
| EvWait (pid : Z)                       (* wait(NULL) returned pid *)
| EvExit (status : Z).

(** What one call of [read] or [write] does, supplied by the environment.
    A transfer moves at most the count asked for. *)
Inductive rd_result :=
| RdBytes (m : positive)
| RdClosed                 (* returns 0 *)
| RdEINTR (usr1 : bool)    (* interrupted; [usr1]: by SIGUSR1, whose handler ran *)
| RdError.

Inductive wr_result :=
| WrBytes (m : N)
| WrEINTR (usr1 : bool)
| WrError                  (* returns -1 with an errno other than EINTR *)
| WrSigpipe.               (* no reader, SIGPIPE at its default: terminated *)

(** Globals of one process. [num_children] is the length of [child_pids];
    a descriptor of -1 is [None]. *)
Record globals := mk_globals {
  child_pids : list Z;
  g_k : Z;
  read_fd : option endpoint;
  write_fd : option endpoint;
  my_id : Z;
  stop_requested : bool
}.

Definition set_stop (b : bool) (g : globals) : globals :=
  mk_globals (child_pids g) (g_k g) (read_fd g) (write_fd g) (my_id g) b.

(** What the environment feeds one process. *)
Record world := mk_world {
  w_stdin : list ascii;        (* unread console input *)
  w_reads : list rd_result;    (* results of the coming read calls *)
  w_writes : list wr_result;   (* results of the coming write calls *)
  w_inbox : list apple_t;      (* records arriving on the inbound pipe *)
  w_waits : list Z             (* pids in the order the children terminate *)
}.

Inductive outcome :=
| Exited (status : Z)
| Killed (sig : Z)   (* terminated by a signal left at its default action *)
| Blocked      (* waits in a system call that never returns *)
| Running.     (* still in its loop when the fuel ran out *)

Definition sizeof_apple : Z := 4 + 4 + Z.of_nat MAX_TEXT.

Definition SIGPIPE : Z := 13.

(** ** write_full and read_full *)

(** The result is the return value, [stop_requested], the final offset of
    [p] from [buf], and the unused results; [None] when the function does
    not return: the calls never finish the transfer, or a [write] to a pipe
    without reader raises SIGPIPE.  The program installs handlers for
    SIGUSR1 and SIGINT only and leaves SIGPIPE as it finds it, so with the
    default action that signal terminates the process inside [write]
    ([WrSigpipe]); where the signal is ignored [write] returns an error
    instead ([WrError]).  [write_killed] tells a terminated process from one
    that waits. *)
Fixpoint write_full (ws : list wr_result) (stop : bool) (p left : Z)
  : option (Z * bool * Z * list wr_result) :=
  if left <=? 0 then Some (0, stop, p, ws)
  else match ws with
       | [] => None
       | WrBytes m :: ws' =>
           let w := Z.min (Z.of_N m) left in
           write_full ws' stop (p + w) (left - w)
       | WrEINTR usr1 :: ws' => write_full ws' (stop || usr1) p left
       | WrError :: ws' => Some (-1, stop, p, ws')
       | WrSigpipe :: _ => None
       end.

Fixpoint write_killed (ws : list wr_result) (left : Z) : bool :=
  if left <=? 0 then false
  else match ws with
       | [] => false
       | WrBytes m :: ws' => write_killed ws' (left - Z.min (Z.of_N m) left)
       | WrEINTR _ :: ws' => write_killed ws' left
       | WrError :: _ => false
       | WrSigpipe :: _ => true
       end.

(** How a call of [write_full] that does not return ends the process. *)
Definition write_stuck (ws : list wr_result) : outcome :=
  if write_killed ws sizeof_apple then Killed SIGPIPE else Blocked.

Fixpoint read_full (rs : list rd_result) (stop : bool) (p left : Z)
  : option (Z * bool * Z * list rd_result) :=
  if left <=? 0 then Some (0, stop, p, rs)
  else match rs with
       | [] => None
       | RdBytes m :: rs' =>
           let r := Z.min (Z.pos m) left in
           read_full rs' stop (p + r) (left - r)
       | RdEINTR usr1 :: rs' =>
           if stop || usr1 then Some (-1, true, p, rs')
           else read_full rs' false p left
       | RdError :: rs' => Some (-1, stop, p, rs')
       | RdClosed :: rs' => Some (-1, stop, p, rs')
       end.

(** ** sigint_parent_handler *)

Definition close_fd (fd : option endpoint) : list event :=
  match fd with Some e => [EvClose e] | None => [] end.

(** [while (wait(NULL) > 0) {}]: [wait] returns -1 once no child is left,
    and otherwise blocks until one of [children] has terminated. *)
Fixpoint wait_loop (order : list Z) (children : list Z) : list event * bool :=
  match children with
  | [] => ([], true)
  | _ =>
      match order with
      | [] => ([], false)
      | p :: order' =>
          if bool_decide (p ∈ children) then
            let '(t, b) := wait_loop order' (filter (λ c, c ≠ p) children) in
            (EvWait p :: t, b)
          else wait_loop order' children
      end
  end.

Definition sigint_parent_handler (g : globals) (order : list Z)
  : list event * outcome :=
  let kills := EvKill <$> filter (λ p, 0 < p) (child_pids g) in
  let closes := close_fd (read_fd g) ++ close_fd (write_fd g) in
  let '(waits, reaped) := wait_loop order (child_pids g) in
  if reaped then
    (EvPrint LogCtrlC :: kills ++ closes ++ waits ++ [EvExit 0], Exited 0)
  else (EvPrint LogCtrlC :: kills ++ closes ++ waits, Blocked).

(** ** node_loop *)

(** How one pass through the loop body ends. *)
Inductive body_result :=
| Send (a : apple_t)   (* write_full(write_fd, &a, sizeof(a)) *)
| Quit.                (* raise(SIGINT) *)

(** Lines 174-179: [text_buf] after the message prompt, and the input
    left.  At the end of the input the text is empty. *)
Definition ask_message (inp : list ascii) : list ascii * list ascii :=
  let '(t, r) :=
    match fgets MAX_TEXT inp with
    | None => ([], inp)
    | Some (t, r) => (t, r)
    end in
  (chomp t, r).

(** The body of the loop after a record was read: what it prints, how it
    ends and the console input left. *)
Definition node_body (id k : Z) (a : apple_t) (inp : list ascii)
  : list log * body_result * list ascii :=
  if dest a =? DEST_EMPTY then
    if id =? 0 then
      let asked := [LogReturnedEmpty id; LogAskDest (k - 1)] in
      match fgets 64 inp with
      | None => (asked, Send (mk_apple DEST_EMPTY (origin a) (text a)), inp)
      | Some (l, inp1) =>
          let dest_buf := chomp l in
          if bool_decide (dest_buf = lit "q") || bool_decide (dest_buf = lit "Q")
          then (asked, Quit, inp1)
          else
            match parse_destination dest_buf k with
            | None => (asked ++ [LogInvalidDest dest_buf], Send a, inp1)
            | Some d =>
                let '(text_buf, inp2) := ask_message inp1 in
                let txt := <[(MAX_TEXT - 1)%nat := NUL]>
                             (strncpy (text a) text_buf (MAX_TEXT - 1)) in
                (asked ++ [LogAskMessage; LogInjecting id d (c_str txt)],
                 Send (mk_apple d id txt), inp2)
            end
      end
    else ([LogEmptyForward id], Send a, inp)
  else if dest a =? id then
    ([LogReceived id (origin a) (c_str (text a)); LogProcessed id],
     Send (mk_apple DEST_EMPTY id (<[0%nat := NUL]> (text a))), inp)
  else ([LogForwarding id (dest a)], Send a, inp).

(** The end of [node_loop], after the loop. *)
Definition node_exit (g : globals) : list event :=
  EvPrint (LogExiting (my_id g))
    :: close_fd (read_fd g) ++ close_fd (write_fd g) ++ [EvExit 0].

Definition fd_or (fd : option endpoint) : endpoint :=
  default (-1, RD) fd.

Fixpoint node_loop (fuel : nat) (g : globals) (w : world)
  : list event * outcome :=
  match fuel with
  | O => ([], Running)
  | S fuel' =>
      if stop_requested g then (node_exit g, Exited 0)
      else
        match read_full (w_reads w) (stop_requested g) 0 sizeof_apple with
        | None => ([], Blocked)
        | Some (r, stop1, _, rs1) =>
            let g1 := set_stop stop1 g in
            if r <? 0 then (node_exit g1, Exited 0)
            else
              match w_inbox w with
              | [] => ([], Blocked)
              | a :: inbox1 =>
                  let '(logs, res, inp1) := node_body (my_id g) (g_k g) a (w_stdin w) in
                  let seen := EvRead (fd_or (read_fd g)) a :: (EvPrint <$> logs) in
                  match res with
                  | Quit =>
                      let '(t, o) := sigint_parent_handler g1 (w_waits w) in
                      (seen ++ t, o)
                  | Send a' =>
                      match write_full (w_writes w) stop1 0 sizeof_apple with
                      | None => (seen, write_stuck (w_writes w))
                      | Some (wr, stop2, _, ws1) =>
                          let g2 := set_stop stop2 g in
                          if wr <? 0 then (seen ++ node_exit g2, Exited 0)
                          else
                            let '(t, o) :=
                              node_loop fuel' g2
                                (mk_world inp1 rs1 ws1 inbox1 (w_waits w)) in
                            (seen ++ EvWrite (fd_or (write_fd g)) a' :: t, o)
                      end
                  end
              end
        end
  end.

(** ** main: validation of k, pipes, forks and the wiring *)

(** An [int] out of a [long], as the assignment [(int) v] gives it on the
    machines the program is built for: the low 32 bits, two's complement. *)
Definition wrap_int (v : Z) : Z := (v + 2 ^ 31) `mod` 2 ^ 32 - 2 ^ 31.

(** [scanf("%d", &k)]: white space is skipped, then an optional sign and
    digits are converted.  The C library converts the digits as [strtol]
    does and stores the result through the [int] pointer, so a number that
    does not fit an [int] is stored wrapped (the standard leaves that case
    undefined). *)
Inductive scan_result :=
| ScanEOF                                (* returns EOF: nothing to read *)
| ScanMismatch                           (* returns 0: no digits *)
| ScanInt (v : Z) (rest : list ascii).   (* returns 1 and stores v *)

Definition scanf_d (inp : list ascii) : scan_result :=
  match skip_space inp with
  | [] => ScanEOF
  | s1 =>
      let '(neg, s2) := scan_sign s1 in
      let '(v, s3) := scan_digits 0 s2 in
      if (length s3 =? length s2)%nat then ScanMismatch
      else ScanInt (wrap_int (clamp_long (if neg then - v else v))) s3
  end.

(** [while ((c = getchar()) != '\n' && c != EOF) {}] *)
Fixpoint discard_line (inp : list ascii) : list ascii :=
  match inp with
  | [] => []
  | c :: r => if Ascii.eqb c NL then r else discard_line r
  end.

(** Whether [pipe] and [fork] succeed is up to the system; a successful
    [fork] returns a positive pid to the parent. *)
Record sysenv := mk_sysenv {
  pipe_ok : Z → bool;
  fork_pid : Z → option positive
}.

#[global] Instance pend_eq_dec : EqDecision pend.
Proof. solve_decision. Defined.

#[global] Instance pend_countable : Countable pend.
Proof.
  refine (inj_countable' (λ e, match e with RD => false | WR => true end)
                         (λ b : bool, if b then WR else RD) _).
  by intros [].
Defined.

(** [for (int i = 0; i < k; ++i) if (pipe(pipes[i]) < 0) return 1;]
    over the indices still to do: the pipes made and the index that failed. *)
Fixpoint pipe_loop (env : sysenv) (js : list Z) : list event * option Z :=
  match js with
  | [] => ([], None)
  | j :: js' =>
      if pipe_ok env j then
        let '(t, f) := pipe_loop env js' in (EvPipe j :: t, f)
      else ([EvPrint (LogPerror "pipe")], Some j)
  end.

(** All descriptors of the [k] pipes, as every process has them at first. *)
Definition all_fds (k : Z) : gset endpoint :=
  list_to_set (j ← seqZ 0 k; [(j, RD); (j, WR)]).

(** The pipe node [i] reads from: [pipes[(i - 1 + k) % k][0]]. *)
Definition read_pipe (k i : Z) : Z := (i - 1 + k) `rem` k.

(** The closing loop of child [i], lines 262-273: its body for one [j],
    then the loop. *)
Definition child_close_step (k i : Z) (fds : gset endpoint) (j : Z)
  : gset endpoint :=
  let fds1 := if bool_decide (j = read_pipe k i) then fds
              else fds ∖ {[ (j, RD) ]} in
  if bool_decide (j = i) then fds1 else fds1 ∖ {[ (j, WR) ]}.

Definition child_close (k i : Z) (fds : gset endpoint) : gset endpoint :=
  foldl (child_close_step k i) fds (seqZ 0 k).

(** The closing loop of the parent, lines 292-295. *)
Definition parent_close_step (k : Z) (fds : gset endpoint) (j : Z)
  : gset endpoint :=
  let fds1 := if bool_decide (j ≠ k - 1) then fds ∖ {[ (j, RD) ]} else fds in
  if bool_decide (j ≠ 0) then fds1 ∖ {[ (j, WR) ]} else fds1.

Definition parent_close (k : Z) (fds : gset endpoint) : gset endpoint :=
  foldl (parent_close_step k) fds (seqZ 0 k).

(** A process: its globals and the descriptors it holds open. *)
Record process := mk_process {
  p_globals : globals;
  p_fds : gset endpoint
}.

(** Child [i] once it has closed what it does not use and is about to call
    [node_loop]; [pids] are the children recorded before its fork. *)
Definition child_process (k i : Z) (pids : list Z) : process :=
  mk_process
    (mk_globals pids k (Some (read_pipe k i, RD)) (Some (i, WR)) i false)
    (child_close k i (all_fds k)).

(** The fork loop, in the parent: the children made, [child_pids], and the
    node whose fork failed. *)
Fixpoint fork_loop (env : sysenv) (k : Z) (ids : list Z) (pids : list Z)
  : list event * list process * list Z * option Z :=
  match ids with
  | [] => ([], [], pids, None)
  | i :: ids' =>
      match fork_pid env i with
      | None => ([EvPrint (LogPerror "fork")], [], pids, Some i)
      | Some pid =>
          let '(t, ch, pids', f) :=
            fork_loop env k ids' (pids ++ [Z.pos pid]) in
          (EvFork i (Z.pos pid) :: t, child_process k i pids :: ch, pids', f)
      end
  end.

Definition parent_process (k : Z) (pids : list Z) : process :=
  mk_process
    (mk_globals pids k (Some (read_pipe k 0, RD)) (Some (0, WR)) 0 false)
    (parent_close k (all_fds k)).

Inductive startup :=
| InvalidK                            (* return 1, line 233 *)
| PipeFailed (j : Z)                  (* return 1, line 246 *)
| ForkFailed (i : Z) (children : list process)   (* return 1, line 255 *)
| RingCreated (k : Z) (parent : process) (children : list process)
              (inp : list ascii).

Definition exit_status (s : startup) : option Z :=
  match s with
  | InvalidK | PipeFailed _ | ForkFailed _ _ => Some 1
  | RingCreated _ _ _ _ => None
  end.

(** [main] up to the point where the ring is wired, lines 223-309. *)
Definition main_startup (env : sysenv) (inp : list ascii)
  : list event * startup :=
  let hello := [EvPrint LogBanner; EvPrint LogAskK] in
  match scanf_d inp with
  | ScanEOF | ScanMismatch => (hello ++ [EvPrint LogInvalidK], InvalidK)
  | ScanInt k rest =>
      if (k <? 2) || (MAX_K <? k) then (hello ++ [EvPrint LogInvalidK], InvalidK)
      else
        let inp1 := discard_line rest in
        match pipe_loop env (seqZ 0 k) with
        | (t1, Some j) => (hello ++ t1, PipeFailed j)
        | (t1, None) =>
            match fork_loop env k (seqZ 1 (k - 1)) [] with
            | (t2, ch, _, Some i) => (hello ++ t1 ++ t2, ForkFailed i ch)
            | (t2, ch, pids, None) =>
                (hello ++ t1 ++ t2 ++ [EvPrint (LogRingCreated k)],
                 RingCreated k (parent_process k pids) ch inp1)
            end
        end
  end.

Definition pipe_of (e : event) : option Z :=
  match e with EvPipe j => Some j | _ => None end.

(** The seed of line 312; the rest of [text] is zero-initialised. *)
Definition seed : apple_t := mk_apple DEST_EMPTY 0 (replicate MAX_TEXT NUL).

(** The parent from the seed on, lines 311-322: a failed write of the seed
    raises SIGINT. *)
Definition main_parent (fuel : nat) (g : globals) (w : world)
  : list event * outcome :=
  match write_full (w_writes w) (stop_requested g) 0 sizeof_apple with
  | None => ([], write_stuck (w_writes w))
  | Some (wr, stop1, _, ws1) =>
      let g1 := set_stop stop1 g in
      if wr <? 0 then
        let '(t, o) := sigint_parent_handler g1 (w_waits w) in
        (EvPrint (LogPerror "write(seed)") :: t, o)
      else
        let '(t, o) :=
          node_loop fuel g1
            (mk_world (w_stdin w) (w_reads w) ws1 (w_inbox w) (w_waits w)) in
        (EvWrite (fd_or (write_fd g)) seed :: t, o)
  end.

(** ** The ring as a whole, while every transfer succeeds *)

(** The token sits in [pipes[rs_pipe]]; only node 0 reads the console. *)
Record ring_state := mk_ring {
  rs_pipe : Z;
  rs_tok : apple_t;
  rs_stdin : list ascii
}.

(** The node whose [read_fd] is the read end of [pipes[j]]. *)
Definition reader_of (k j : Z) : option Z :=
  find (λ i, bool_decide (read_pipe k i = j)) (seqZ 0 k).

(** The reader of the pipe takes the token through one pass of its loop
    and writes it to its own pipe. [None]: the ring is shut down. *)
Definition ring_step (k : Z) (s : ring_state)
  : list log * option ring_state :=
  match reader_of k (rs_pipe s) with
  | None => ([], None)
  | Some i =>
      let '(logs, res, inp') := node_body i k (rs_tok s) (rs_stdin s) in
      match res with
      | Send a' => (logs, Some (mk_ring i a' inp'))
      | Quit => (logs, None)
      end
  end.

Fixpoint ring_run (n : nat) (k : Z) (s : ring_state)
  : list log * option ring_state :=
  match n with
  | O => ([], Some s)
  | S n' =>
      match ring_step k s with
      | (logs, Some s') =>
          let '(logs', r) := ring_run n' k s' in (logs ++ logs', r)
      | (logs, None) => (logs, None)
      end
  end.

Definition delivery_of (l : log) : option (Z * Z * list ascii) :=
  match l with
  | LogReceived id from txt => Some (id, from, txt)
  | _ => None
  end.

Definition first_delivery (logs : list log) : option (Z * Z * list ascii) :=
  list_find (λ l, is_Some (delivery_of l)) logs ≫= λ x, delivery_of x.2.

(** Pipe traversals until some node reports a delivery: their number, and
    the node, sender and text reported. *)
Fixpoint hops_to_delivery (fuel : nat) (k : Z) (s : ring_state)
  : option (nat * (Z * Z * list ascii)) :=
  match fuel with
  | O => None
  | S fuel' =>
      match ring_step k s with
      | (logs, Some s') =>
          match first_delivery logs with
          | Some d => Some (1%nat, d)
          | None =>
              match hops_to_delivery fuel' k s' with
              | Some (h, d) => Some (S h, d)
              | None => None
              end
          end
      | (_, None) => None
      end
  end.

(** The distance the specification gives for a message from [o] to [d]. *)
Definition ring_distance (k o d : Z) : Z :=
  let r := (d - o + k) `mod` k in if r =? 0 then k else r.

(** ** The destination syntax, in the words of the specification *)

Definition decimal (ds : list ascii) : Z :=
  foldl (λ acc c, 10 * acc + (code c - 48)) 0 ds.

(** Optional white space, an optional sign, then at least one digit and
    nothing after the digits; [v] is the signed value. *)
Definition dest_syntax (s : list ascii) (v : Z) : Prop :=
  ∃ ws sg ds,
    s = ws ++ sg ++ ds ∧
    Forall (λ c, isspace c = true) ws ∧
    (sg = [] ∧ v = decimal ds ∨
     sg = lit "+" ∧ v = decimal ds ∨
     sg = lit "-" ∧ v = - decimal ds) ∧
    ds ≠ [] ∧
    Forall (λ c, isdigit c = true) ds.

(** ** End of input at a prompt of the Injector *)

(** The console is at its end when the destination is asked for. *)
Definition eof_at_dest_prompt (inp : list ascii) : Prop :=
  fgets 64 inp = None.

(** A valid destination was read and the console is at its end when the
    message is asked for. *)
Definition eof_at_message_prompt (k : Z) (inp : list ascii) : Prop :=
  ∃ dl inp1 d,
    fgets 64 inp = Some (dl, inp1) ∧
    parse_destination (chomp dl) k = Some d ∧
    fgets MAX_TEXT inp1 = None.

(** In the words of the specification: end of input at either prompt makes
    the Injector send the token on empty. *)
Definition eof_reemits_empty : Prop :=
  ∀ k a inp,
    2 ≤ k ≤ MAX_K → dest a = DEST_EMPTY →
    eof_at_dest_prompt inp ∨ eof_at_message_prompt k inp →
    ∃ logs a' inp',
      node_body 0 k a inp = (logs, Send a', inp') ∧ dest a' = DEST_EMPTY.

(** ** Bytes moved by a run of partial transfers *)

Definition bytes_read (ms : list positive) : Z :=
  foldr (λ m acc, Z.pos m + acc) 0 ms.

Definition bytes_written (ns : list N) : Z :=
  foldr (λ n acc, Z.of_N n + acc) 0 ns.

(** ** main as a whole *)

(** [main] from its first line to the end of the parent: a failed start
    returns 1; once the ring is wired the parent seeds it and runs its
    loop. *)
Definition main (fuel : nat) (env : sysenv) (w : world)
  : list event * outcome :=
  match main_startup env (w_stdin w) with
  | (t, RingCreated k parent _ inp) =>
      let '(t', o) :=
        main_parent fuel (p_globals parent)
          (mk_world inp (w_reads w) (w_writes w) (w_inbox w) (w_waits w)) in
      (t ++ t', o)
  | (t, _) => (t ++ [EvExit 1], Exited 1)
  end.

(** ** What is counted and kept along a run *)

Definition is_read (e : event) : bool :=
  match e with EvRead _ _ => true | _ => false end.

Definition is_write (e : event) : bool :=
  match e with EvWrite _ _ => true | _ => false end.

Definition count_reads (t : list event) : nat := length (filter is_read t).
Definition count_writes (t : list event) : nat := length (filter is_write t).

(** A system call that touches another process or a pipe's content. *)
Definition is_quiet (e : event) : bool :=
  match e with
  | EvRead _ _ | EvWrite _ _ | EvKill _ | EvWait _ => false
  | _ => true
  end.

(** A record as the nodes of a ring of [k] expect it: a whole buffer with a
    terminator somewhere in it, a destination that is the sentinel or a node,
    and a node as origin. *)
Definition wf_apple (k : Z) (a : apple_t) : Prop :=
  length (text a) = MAX_TEXT ∧ NUL ∈ text a ∧
  (dest a = DEST_EMPTY ∨ 0 ≤ dest a < k) ∧ 0 ≤ origin a < k.

(** The record of a completed read or write. *)
Definition record_read (e : event) : option apple_t :=
  match e with EvRead _ a => Some a | _ => None end.

Definition record_written (e : event) : option apple_t :=
  match e with EvWrite _ a => Some a | _ => None end.

(** A record that node [id] passes on as it is: addressed to another node,
    or empty at a node that is not the Injector. *)
Definition passes_through (id : Z) (a : apple_t) : Prop :=
  dest a ≠ id ∧ (id ≠ 0 ∨ dest a ≠ DEST_EMPTY).

(** ** The ring size, in the words of the specification *)




(** What [scanf] stores in [k] for a sign and digits. *)
Definition stored_int (sg ds : list ascii) : Z :=
  wrap_int
    (clamp_long (if bool_decide (sg = lit "-") then - decimal ds
                 else decimal ds)).

Definition starts_with_digit (s : list ascii) : bool :=
  match s with c :: _ => isdigit c | [] => false end.

(** The way [scanf("%d")] splits its input: white space, an optional sign,
    the digits, and what it leaves unread. *)
Definition scanf_split (inp ws sg ds tail : list ascii) : Prop :=
  inp = ws ++ sg ++ ds ++ tail ∧
  Forall (λ c, isspace c = true) ws ∧
  (sg = [] ∨ sg = lit "+" ∨ sg = lit "-") ∧
  Forall (λ c, isdigit c = true) ds ∧
  starts_with_digit tail = false ∧
  match sg ++ ds ++ tail with
  | c :: _ => isspace c = false
  | [] => True
  end ∧
  (sg = [] → ds = [] →
   match tail with
   | c :: _ => Ascii.eqb c "+" = false ∧ Ascii.eqb c "-" = false
   | [] => True
   end).

(** * Properties *)

(** ** Characters and the scanning loops *)

Lemma digit_of_Some c d : digit_of c = Some d → d = code c - 48 ∧ 0 ≤ d ≤ 9.
Proof.
  unfold digit_of. destruct (_ && _) eqn:E; [|done]. intros [= <-].
  apply andb_true_iff in E as [?%Z.leb_le ?%Z.leb_le]. lia.
Qed.

Lemma isdigit_digit_of c : isdigit c = true → digit_of c = Some (code c - 48).
Proof.
  unfold isdigit. destruct (digit_of c) eqn:E; [|done].
  apply digit_of_Some in E as [-> _]. done.
Qed.

Lemma isdigit_code c : isdigit c = true ↔ 48 ≤ code c ≤ 57.
Proof.
  unfold isdigit, digit_of. destruct (_ && _) eqn:E.
  - apply andb_true_iff in E as [?%Z.leb_le ?%Z.leb_le]. done.
  - apply andb_false_iff in E as [?%Z.leb_gt | ?%Z.leb_gt]; split; (done || lia).
Qed.

Lemma isdigit_not_space c : isdigit c = true → isspace c = false.
Proof. rewrite isdigit_code. unfold isspace. lia. Qed.

Lemma isdigit_not_minus c : isdigit c = true → Ascii.eqb c "-" = false.
Proof.
  rewrite isdigit_code. destruct (Ascii.eqb_spec c "-") as [->|]; [|done].
  vm_compute. intros [? ?]. done.
Qed.

Lemma isdigit_not_plus c : isdigit c = true → Ascii.eqb c "+" = false.
Proof.
  rewrite isdigit_code. destruct (Ascii.eqb_spec c "+") as [->|]; [|done].
  vm_compute. intros [? ?]. done.
Qed.

Lemma skip_space_app ws s :
  Forall (λ c, isspace c = true) ws → skip_space (ws ++ s) = skip_space s.
Proof. induction 1 as [|c ws Hc _ IH]; simpl; [done|]. by rewrite Hc. Qed.

Lemma skip_space_split s :
  ∃ ws, s = ws ++ skip_space s ∧ Forall (λ c, isspace c = true) ws.
Proof.
  induction s as [|c s [ws [Hs Hws]]]; simpl.
  - by exists [].
  - destruct (isspace c) eqn:E.
    + exists (c :: ws). split; [simpl; congruence | by constructor].
    + by exists [].
Qed.

Lemma skip_space_head c s : isspace c = false → skip_space (c :: s) = c :: s.
Proof. simpl. by intros ->. Qed.

Lemma scan_digits_app acc ds s :
  Forall (λ c, isdigit c = true) ds →
  scan_digits acc (ds ++ s) =
  scan_digits (foldl (λ acc c, 10 * acc + (code c - 48)) acc ds) s.
Proof.
  intros H. revert acc. induction H as [|c ds Hc _ IH]; intros acc; simpl; [done|].
  by rewrite (isdigit_digit_of _ Hc), IH.
Qed.

Lemma scan_digits_split acc s :
  ∃ ds, s = ds ++ (scan_digits acc s).2 ∧
        Forall (λ c, isdigit c = true) ds ∧
        (scan_digits acc s).1 = foldl (λ acc c, 10 * acc + (code c - 48)) acc ds ∧
        match (scan_digits acc s).2 with
        | c :: _ => isdigit c = false
        | [] => True
        end.
Proof.
  revert acc. induction s as [|c s IH]; intros acc; simpl.
  - by exists [].
  - destruct (digit_of c) as [d|] eqn:E.
    + destruct (IH (10 * acc + d)) as (ds & Hs & Hds & Hv & Hnext).
      exists (c :: ds). simpl.
      apply digit_of_Some in E as E'. destruct E' as [-> _].
      repeat split; [congruence| |done|done].
      constructor; [|done]. unfold isdigit. by rewrite E.
    + exists []. simpl. repeat split; [constructor|]. unfold isdigit. by rewrite E.
Qed.

Lemma scan_digits_nil acc : scan_digits acc [] = (acc, []).
Proof. done. Qed.

Lemma decimal_nonneg_from acc ds :
  0 ≤ acc → Forall (λ c, isdigit c = true) ds →
  0 ≤ foldl (λ acc c, 10 * acc + (code c - 48)) acc ds.
Proof.
  intros Hacc H. revert acc Hacc.
  induction H as [|c ds Hc _ IH]; intros acc Hacc; simpl; [done|].
  apply IH. apply isdigit_code in Hc. lia.
Qed.

Lemma decimal_nonneg ds : Forall (λ c, isdigit c = true) ds → 0 ≤ decimal ds.
Proof. by apply decimal_nonneg_from. Qed.

Lemma scan_sign_split s :
  ∃ sg, s = sg ++ (scan_sign s).2 ∧
        (sg = [] ∧ (scan_sign s).1 = false ∨
         sg = lit "+" ∧ (scan_sign s).1 = false ∨
         sg = lit "-" ∧ (scan_sign s).1 = true).
Proof.
  destruct s as [|c s]; simpl; [exists []; auto|].
  destruct (Ascii.eqb_spec c "-") as [->|]; [exists (lit "-"); auto|].
  destruct (Ascii.eqb_spec c "+") as [->|]; [exists (lit "+"); auto|].
  exists []; auto.
Qed.

Lemma clamp_long_id v : LONG_MIN ≤ v ≤ LONG_MAX → clamp_long v = v.
Proof. unfold clamp_long. intros ?. repeat case_match; lia. Qed.

Lemma clamp_long_range v lo hi :
  LONG_MIN < lo → hi < LONG_MAX → lo ≤ clamp_long v ≤ hi → clamp_long v = v.
Proof. unfold clamp_long. repeat case_match; lia. Qed.

(** ** parse_destination *)

Lemma parse_destination_sound s k v :
  k ≤ INT_MAX → parse_destination s k = Some v → dest_syntax s v ∧ 0 ≤ v < k.
Proof.
  intros Hk. unfold parse_destination, strtol.
  destruct (skip_space_split s) as (ws & Hs & Hws).
  destruct (scan_sign_split (skip_space s)) as (sg & Hsg & Hsign).
  destruct (scan_sign (skip_space s)) as [neg s2] eqn:Esign. simpl in *.
  destruct (scan_digits_split 0 s2) as (ds & Hds & Hall & Hval & _).
  destruct (scan_digits 0 s2) as [v0 s3] eqn:Edig. simpl in *.
  destruct (length s3 =? length s2)%nat eqn:Elen; [done|].
  apply Nat.eqb_neq in Elen.
  destruct (_ || _) eqn:Eend; [done|].
  apply orb_false_elim in Eend as [Ee0 Eel].
  apply negb_false_iff, Nat.eqb_eq in Eel.
  destruct (_ || _) eqn:Erange; [done|]. intros [= <-].
  apply orb_false_elim in Erange as [Hlo Hhi].
  apply Z.ltb_ge in Hlo. apply Z.leb_gt in Hhi.
  assert (length s3 ≤ length s)%nat as Hle.
  { rewrite Hs, Hsg, Hds. rewrite !length_app. lia. }
  assert (s3 = []) as ->.
  { apply length_zero_iff_nil. apply Nat.eqb_neq in Ee0. lia. }
  rewrite app_nil_r in Hds. subst s2.
  assert (ds ≠ []) as Hne by (intros ->; simpl in Elen; lia).
  assert (clamp_long (if neg then - v0 else v0) = (if neg then - v0 else v0)) as Hc.
  { apply (clamp_long_range _ 0 INT_MAX); [done|done|lia]. }
  rewrite Hc in *. split; [|lia].
  exists ws, sg, ds. repeat split; try done; [congruence|].
  unfold decimal. rewrite <- Hval.
  destruct Hsign as [[-> ->] | [[-> ->] | [-> ->]]]; auto.
Qed.

Lemma strtol_accepts ws sg ds :
  Forall (λ c, isspace c = true) ws →
  sg = [] ∨ sg = lit "+" ∨ sg = lit "-" →
  ds ≠ [] → Forall (λ c, isdigit c = true) ds →
  strtol (ws ++ sg ++ ds) =
  (clamp_long (if bool_decide (sg = lit "-") then - decimal ds else decimal ds),
   length (ws ++ sg ++ ds)).
Proof.
  intros Hws Hsg Hne Hds. unfold strtol.
  rewrite skip_space_app by done.
  destruct ds as [|c ds]; [done|].
  apply Forall_cons in Hds as Hcd. destruct Hcd as [Hc Hds'].
  assert (scan_digits 0 (c :: ds) = (decimal (c :: ds), [])) as Hscan.
  { rewrite <- (app_nil_r (c :: ds)) at 1. by rewrite scan_digits_app. }
  assert (scan_sign (sg ++ c :: ds) = (bool_decide (sg = lit "-"), c :: ds)) as Hsign.
  { destruct Hsg as [-> | [-> | ->]]; simpl app; unfold scan_sign; [|done|done].
    by rewrite isdigit_not_minus, isdigit_not_plus by done. }
  assert (skip_space (sg ++ c :: ds) = sg ++ c :: ds) as ->.
  { destruct Hsg as [-> | [-> | ->]]; simpl app;
      [by apply skip_space_head, isdigit_not_space|done|done]. }
  rewrite Hsign, Hscan. simpl length.
  rewrite !length_app. simpl length.
  destruct (bool_decide (sg = lit "-")); do 2 f_equal; lia.
Qed.

Lemma parse_destination_complete s k v :
  dest_syntax s v → 0 ≤ v < k → k ≤ INT_MAX → parse_destination s k = Some v.
Proof.
  intros (ws & sg & ds & -> & Hws & Hsg & Hne & Hds) Hv Hk.
  unfold parse_destination.
  assert (sg = [] ∨ sg = lit "+" ∨ sg = lit "-") as Hsg'
    by (destruct Hsg as [[? ?] | [[? ?] | [? ?]]]; auto).
  rewrite strtol_accepts by done.
  assert ((if bool_decide (sg = lit "-") then - decimal ds else decimal ds) = v) as ->.
  { destruct Hsg as [[-> ->] | [[-> ->] | [-> ->]]]; done. }
  rewrite clamp_long_id by (unfold LONG_MIN, LONG_MAX, INT_MAX in *; lia).
  rewrite Nat.eqb_refl. simpl negb. rewrite orb_false_r.
  destruct (length (ws ++ sg ++ ds) =? 0)%nat eqn:E.
  { apply Nat.eqb_eq, length_zero_iff_nil in E.
    destruct ws, sg, ds; done. }
  simpl. replace (v <? 0) with false by lia. replace (k <=? v) with false by lia.
  done.
Qed.

(** ** Ring arithmetic and the wiring seen by the token *)

Lemma succ_mod k j :
  0 ≤ j < k → (j + 1) `mod` k = if j + 1 =? k then 0 else j + 1.
Proof.
  intros Hj. destruct (Z.eqb_spec (j + 1) k) as [<-|Hne].
  - apply Z.mod_same. lia.
  - apply Z.mod_small. lia.
Qed.

Lemma read_pipe_eq k i :
  0 ≤ i < k → read_pipe k i = if i =? 0 then k - 1 else i - 1.
Proof.
  intros Hi. unfold read_pipe. rewrite Z.rem_mod_nonneg by lia.
  destruct (Z.eqb_spec i 0) as [->|Hne].
  - rewrite Z.mod_small; lia.
  - replace (i - 1 + k) with (i - 1 + 1 * k) by lia.
    rewrite Z.mod_add by lia. apply Z.mod_small. lia.
Qed.

Lemma read_pipe_range k i : 0 ≤ i < k → 0 ≤ read_pipe k i < k.
Proof. intros Hi. rewrite read_pipe_eq by done. case_match; lia. Qed.

Lemma read_pipe_succ k i j :
  0 ≤ i < k → 0 ≤ j < k → read_pipe k i = j ↔ i = (j + 1) `mod` k.
Proof.
  intros Hi Hj. rewrite read_pipe_eq, succ_mod by done.
  destruct (Z.eqb_spec i 0), (Z.eqb_spec (j + 1) k); lia.
Qed.

Lemma ring_distance_eq k o d :
  0 ≤ o < k → 0 ≤ d < k →
  ring_distance k o d = if o <? d then d - o else d - o + k.
Proof.
  intros Ho Hd. unfold ring_distance.
  destruct (Z.ltb_spec o d) as [Hlt|Hge].
  - replace (d - o + k) with (d - o + 1 * k) by lia.
    rewrite Z.mod_add, Z.mod_small by lia.
    destruct (Z.eqb_spec (d - o) 0); lia.
  - destruct (Z.eq_dec d o) as [->|Hne].
    + replace (o - o + k) with k by lia. rewrite Z.mod_same by lia. simpl. lia.
    + rewrite Z.mod_small by lia. destruct (Z.eqb_spec (d - o + k) 0); lia.
Qed.

Lemma find_unique {A} (f : A → bool) (l : list A) (x : A) :
  x ∈ l → f x = true → (∀ y, y ∈ l → f y = true → y = x) → find f l = Some x.
Proof.
  induction l as [|y l IH]; intros Hin Hx Huniq.
  - by apply elem_of_nil in Hin.
  - simpl. destruct (f y) eqn:Ey.
    + f_equal. apply Huniq; [left|done].
    + apply IH; [|done|].
      * apply elem_of_cons in Hin as [->|]; [congruence|done].
      * intros z Hz. apply Huniq. by right.
Qed.

Lemma reader_of_succ k j :
  0 ≤ j < k → reader_of k j = Some ((j + 1) `mod` k).
Proof.
  intros Hj. unfold reader_of.
  assert (0 ≤ (j + 1) `mod` k < k) as Hr by (apply Z.mod_pos_bound; lia).
  apply find_unique.
  - apply elem_of_seqZ. lia.
  - apply bool_decide_eq_true. by apply read_pipe_succ.
  - intros y Hy%elem_of_seqZ Hf%bool_decide_eq_true.
    apply read_pipe_succ in Hf; [done|lia|done].
Qed.

(** ** One pass of a node over the token *)

Lemma node_body_deliver id k a inp :
  0 ≤ id → dest a = id →
  node_body id k a inp =
  ([LogReceived id (origin a) (c_str (text a)); LogProcessed id],
   Send (mk_apple DEST_EMPTY id (<[0%nat := NUL]> (text a))), inp).
Proof.
  intros Hid Hd. unfold node_body, DEST_EMPTY.
  destruct (Z.eqb_spec (dest a) (-1)); [lia|].
  destruct (Z.eqb_spec (dest a) id); [done|lia].
Qed.

Lemma node_body_forward id k a inp :
  dest a ≠ DEST_EMPTY → dest a ≠ id →
  node_body id k a inp = ([LogForwarding id (dest a)], Send a, inp).
Proof.
  intros He Hd. unfold node_body.
  destruct (Z.eqb_spec (dest a) DEST_EMPTY); [done|].
  destruct (Z.eqb_spec (dest a) id); done.
Qed.

Lemma node_body_relay_empty id k a inp :
  dest a = DEST_EMPTY → id ≠ 0 →
  node_body id k a inp = ([LogEmptyForward id], Send a, inp).
Proof.
  intros He Hid. unfold node_body. rewrite He. simpl.
  destruct (Z.eqb_spec id 0); done.
Qed.

Lemma c_str_cleared (buf : list ascii) : c_str (<[0%nat := NUL]> buf) = [].
Proof. by destruct buf. Qed.

(** ** Hops from injection to delivery *)

Lemma ring_step_deliver k j a inp :
  0 ≤ j < k → dest a = (j + 1) `mod` k →
  ring_step k (mk_ring j a inp) =
  ([LogReceived (dest a) (origin a) (c_str (text a)); LogProcessed (dest a)],
   Some (mk_ring (dest a)
           (mk_apple DEST_EMPTY (dest a) (<[0%nat := NUL]> (text a))) inp)).
Proof.
  intros Hj Hd. unfold ring_step. simpl. rewrite reader_of_succ by done.
  rewrite <- Hd. rewrite node_body_deliver; [done| |done].
  rewrite Hd. apply Z.mod_pos_bound. lia.
Qed.

Lemma ring_step_forward k j a inp :
  0 ≤ j < k → dest a ≠ DEST_EMPTY → dest a ≠ (j + 1) `mod` k →
  ring_step k (mk_ring j a inp) =
  ([LogForwarding ((j + 1) `mod` k) (dest a)],
   Some (mk_ring ((j + 1) `mod` k) a inp)).
Proof.
  intros Hj He Hd. unfold ring_step. simpl. rewrite reader_of_succ by done.
  by rewrite node_body_forward.
Qed.

Lemma hops_to_delivery_distance fuel k j a inp :
  0 ≤ j < k → 0 ≤ dest a < k →
  (Z.to_nat (ring_distance k j (dest a)) ≤ fuel)%nat →
  hops_to_delivery fuel k (mk_ring j a inp) =
  Some (Z.to_nat (ring_distance k j (dest a)),
        (dest a, origin a, c_str (text a))).
Proof.
  revert j. induction fuel as [|fuel IH]; intros j Hj Hd Hfuel.
  - rewrite ring_distance_eq in Hfuel by done. case_match; lia.
  - assert (0 ≤ (j + 1) `mod` k < k) as Hr by (apply Z.mod_pos_bound; lia).
    simpl. destruct (Z.eq_dec (dest a) ((j + 1) `mod` k)) as [Heq|Hne].
    + rewrite ring_step_deliver by done. simpl.
      do 2 f_equal. rewrite ring_distance_eq by done.
      rewrite succ_mod in Heq by done.
      destruct (Z.eqb_spec (j + 1) k), (Z.ltb_spec j (dest a)); lia.
    + rewrite ring_step_forward by (done || unfold DEST_EMPTY; lia). simpl.
      assert (ring_distance k j (dest a)
              = 1 + ring_distance k ((j + 1) `mod` k) (dest a)
              ∧ 1 ≤ ring_distance k ((j + 1) `mod` k) (dest a)) as [Hstep Hpos].
      { rewrite !ring_distance_eq by done. rewrite succ_mod in * by done.
        destruct (Z.eqb_spec (j + 1) k); repeat case_match; lia. }
      rewrite IH by (done || lia). do 2 f_equal. lia.
Qed.

(** ** Text buffers: fgets, chomp and strncpy *)

Lemma c_str_no_nul (t : list ascii) : NUL ∉ t → c_str t = t.
Proof.
  induction t as [|c t IH]; intros Hnul; simpl; [done|].
  apply not_elem_of_cons in Hnul as [Hc Ht].
  destruct (Ascii.eqb_spec c NUL); [done|]. by rewrite IH.
Qed.

Lemma c_str_app_nul (t r : list ascii) : NUL ∉ t → c_str (t ++ NUL :: r) = t.
Proof.
  induction t as [|c t IH]; intros Hnul; simpl; [done|].
  apply not_elem_of_cons in Hnul as [Hc Ht].
  destruct (Ascii.eqb_spec c NUL); [done|]. by rewrite IH.
Qed.

Lemma chomp_snoc_nl (t : list ascii) : chomp (t ++ [NL]) = t.
Proof. unfold chomp. rewrite reverse_snoc. simpl. by rewrite reverse_involutive. Qed.

Lemma chomp_no_nl (t : list ascii) : NL ∉ t → chomp t = t.
Proof.
  intros Hnl. unfold chomp. destruct (reverse t) as [|c r] eqn:E; [done|].
  destruct (Ascii.eqb_spec c NL) as [->|]; [|done].
  exfalso. apply Hnl. apply elem_of_reverse. rewrite E. left.
Qed.

Lemma read_line_long n (line tail : list ascii) :
  NL ∉ line → (n ≤ length line)%nat →
  read_line n (line ++ tail) = (take n line, drop n line ++ tail).
Proof.
  revert line. induction n as [|n IH]; intros line Hnl Hlen.
  - by destruct line.
  - destruct line as [|c line]; simpl in Hlen; [lia|].
    apply not_elem_of_cons in Hnl as [Hc Hl]. simpl.
    destruct (Ascii.eqb_spec c NL); [done|].
    rewrite IH by (done || lia). done.
Qed.

Lemma read_line_short n (line rest : list ascii) :
  NL ∉ line → (length line < n)%nat →
  read_line n (line ++ NL :: rest) = (line ++ [NL], rest).
Proof.
  revert line. induction n as [|n IH]; intros line Hnl Hlen; [lia|].
  destruct line as [|c line]; simpl.
  - done.
  - apply not_elem_of_cons in Hnl as [Hc Hl]. simpl in Hlen.
    destruct (Ascii.eqb_spec c NL); [done|].
    rewrite IH by (done || lia). done.
Qed.

Lemma read_line_eof n (line : list ascii) :
  NL ∉ line → (length line ≤ n)%nat → read_line n line = (line, []).
Proof.
  revert line. induction n as [|n IH]; intros line Hnl Hlen.
  - destruct line; simpl in *; [done|lia].
  - destruct line as [|c line]; simpl; [done|].
    apply not_elem_of_cons in Hnl as [Hc Hl]. simpl in Hlen.
    destruct (Ascii.eqb_spec c NL); [done|].
    rewrite IH by (done || lia). done.
Qed.

Lemma elem_of_take_from {A} (x : A) (n : nat) (l : list A) :
  x ∈ take n l → x ∈ l.
Proof.
  intros H. rewrite <- (take_drop n l). apply elem_of_app. by left.
Qed.

Lemma ask_message_line (line tail : list ascii) :
  NUL ∉ line → NL ∉ line → tail = [] ∨ (∃ rest, tail = NL :: rest) →
  (ask_message (line ++ tail)).1 = take (MAX_TEXT - 1) line.
Proof.
  intros Hnul Hnl Htail. unfold ask_message, fgets.
  destruct (line ++ tail) as [|c0 inp0] eqn:Einp.
  { apply app_eq_nil in Einp as [-> _]. done. }
  rewrite <- Einp. clear c0 inp0 Einp.
  destruct (Nat.le_gt_cases (MAX_TEXT - 1) (length line)) as [Hlong|Hshort].
  - rewrite read_line_long by done.
    assert (NUL ∉ take (MAX_TEXT - 1) line) as Hnul'
      by (intros H; apply Hnul; eapply elem_of_take_from; done).
    assert (NL ∉ take (MAX_TEXT - 1) line) as Hnl'
      by (intros H; apply Hnl; eapply elem_of_take_from; done).
    simpl fst. rewrite c_str_no_nul by done. by apply chomp_no_nl.
  - rewrite (take_ge line) by lia.
    destruct Htail as [->|[rest ->]].
    + rewrite app_nil_r. rewrite read_line_eof by (done || lia).
      simpl fst. rewrite c_str_no_nul by done. by apply chomp_no_nl.
    + rewrite read_line_short by done. simpl fst.
      rewrite c_str_no_nul. { apply chomp_snoc_nl. }
      rewrite elem_of_app, list_elem_of_singleton. intros [?|?]; done.
Qed.

Lemma ask_message_eof : ask_message [] = ([], []).
Proof. done. Qed.

(** [a.text] after lines 183-184. *)
Lemma injected_text (old t : list ascii) :
  NUL ∉ t → (length t ≤ MAX_TEXT - 1)%nat →
  c_str (<[(MAX_TEXT - 1)%nat := NUL]> (strncpy old t (MAX_TEXT - 1))) = t.
Proof.
  intros Hnul Hlen. unfold strncpy.
  rewrite take_app_ge by done.
  rewrite take_replicate.
  set (pad := ((MAX_TEXT - 1 - length t) `min` (MAX_TEXT - 1))%nat).
  destruct pad as [|pad'] eqn:Epad.
  - change (replicate 0 NUL) with (@nil ascii). rewrite (app_nil_r t).
    assert (length t = (MAX_TEXT - 1)%nat) as Hfull by lia.
    destruct (drop (MAX_TEXT - 1) old) as [|c r] eqn:Ed.
    + rewrite app_nil_r. rewrite list_insert_ge by lia. by apply c_str_no_nul.
    + rewrite <- Hfull. rewrite insert_app_r_alt by lia.
      rewrite Nat.sub_diag. simpl. by apply c_str_app_nul.
  - simpl replicate. rewrite <- app_assoc. simpl app.
    rewrite insert_app_r_alt by lia.
    destruct (MAX_TEXT - 1 - length t)%nat; simpl; by rewrite c_str_app_nul.
Qed.

Lemma injected_text_length (old t : list ascii) :
  length old = MAX_TEXT →
  length (<[(MAX_TEXT - 1)%nat := NUL]> (strncpy old t (MAX_TEXT - 1))) = MAX_TEXT.
Proof.
  intros Hold. rewrite length_insert. unfold strncpy.
  rewrite length_app, length_take, length_drop, length_app, length_replicate.
  lia.
Qed.

(** ** Injection *)

Lemma parse_destination_not_quit k d s :
  parse_destination s k = Some d → s ≠ lit "q" ∧ s ≠ lit "Q".
Proof. intros H. split; intros ->; discriminate H. Qed.

Lemma node_body_inject k a inp dl inp1 d :
  dest a = DEST_EMPTY → fgets 64 inp = Some (dl, inp1) →
  parse_destination (chomp dl) k = Some d →
  let txt := <[(MAX_TEXT - 1)%nat := NUL]>
               (strncpy (text a) (ask_message inp1).1 (MAX_TEXT - 1)) in
  node_body 0 k a inp =
  ([LogReturnedEmpty 0; LogAskDest (k - 1); LogAskMessage;
    LogInjecting 0 d (c_str txt)],
   Send (mk_apple d 0 txt), (ask_message inp1).2).
Proof.
  intros He Hget Hparse txt. unfold node_body. rewrite He, Hget. simpl.
  destruct (parse_destination_not_quit _ _ _ Hparse) as [Hq HQ].
  rewrite !bool_decide_eq_false_2 by done. simpl.
  rewrite Hparse. subst txt. by destruct (ask_message inp1).
Qed.

(** C1: a message written by node [o] into its pipe and addressed to a
    valid [d] is delivered after [(d - o + k) mod k] pipe traversals when
    that is not zero and after [k] when [d = o]; destination validation
    accepts the Injector's own id 0, and the token the Injector then emits
    goes round the whole ring. *)
Theorem hops_from_origin_to_destination
    (k o d : Z) (a : apple_t) (inp : list ascii) (fuel : nat) :
  2 ≤ k ≤ MAX_K → 0 ≤ o < k → 0 ≤ d < k →
  dest a = d → origin a = o → (Z.to_nat k ≤ fuel)%nat →
  let h := if (d - o + k) `mod` k =? 0 then k else (d - o + k) `mod` k in
  hops_to_delivery fuel k (mk_ring o a inp)
    = Some (Z.to_nat h, (d, o, c_str (text a))) ∧
  (d = o → h = k) ∧
  parse_destination (lit "0") k = Some 0 ∧
  ∀ a0 rest, dest a0 = DEST_EMPTY →
    ∃ logs a' inp',
      node_body 0 k a0 (lit "0" ++ NL :: rest) = (logs, Send a', inp') ∧
      dest a' = 0 ∧ origin a' = 0 ∧
      hops_to_delivery fuel k (mk_ring 0 a' inp')
        = Some (Z.to_nat k, (0, 0, c_str (text a'))).
Proof.
  intros Hk Ho Hd Hdest Horig Hfuel h.
  assert (h = ring_distance k o d) as Hh by reflexivity.
  assert (∀ x, 0 ≤ x < k → 1 ≤ ring_distance k o x ≤ k) as Hbound.
  { intros x Hx. rewrite ring_distance_eq by done. case_match; lia. }
  assert (parse_destination (lit "0") k = Some 0) as Hzero.
  { unfold parse_destination. change (strtol (lit "0")) with (0, 1%nat).
    simpl. destruct (Z.leb_spec k 0); [lia|done]. }
  split; [|split; [|split]].
  - rewrite Hh, <- Hdest, <- Horig.
    apply hops_to_delivery_distance; [lia|lia|].
    rewrite Horig. specialize (Hbound (dest a)). lia.
  - intros ->. rewrite Hh, ring_distance_eq by done.
    destruct (Z.ltb_spec o o); lia.
  - done.
  - intros a0 rest Ha0.
    eexists _, _, _. split.
    { apply (node_body_inject k a0 _ (lit "0" ++ [NL]) rest 0);
        [done|reflexivity|exact Hzero]. }
    split; [done|]. split; [done|].
    set (a' := mk_apple 0 0 _).
    replace (Z.to_nat k) with (Z.to_nat (ring_distance k 0 (dest a'))).
    + apply hops_to_delivery_distance; simpl; [lia|lia|].
      rewrite ring_distance_eq by lia. simpl. lia.
    + simpl. rewrite ring_distance_eq by lia. simpl. lia.
Qed.

Lemma hops_from_origin_to_destination_witness :
  hops_to_delivery 3 3 (mk_ring 0 (mk_apple 2 0 (lit "hi")) [])
    = Some (2%nat, (2, 0, lit "hi")).
Proof.
  refine (proj1 (hops_from_origin_to_destination
                   3 0 2 (mk_apple 2 0 (lit "hi")) [] 3 _ _ _ _ _ _));
    (reflexivity || (unfold MAX_K; lia)).
Defined.

(** C2: the text a node reports at delivery is the text supplied at the
    message prompt, cut to [MAX_TEXT - 1] characters so that it fits the
    1024-byte buffer with its terminator; a relay that forwards an addressed
    token not meant for it sends the very record it received. *)
Theorem delivered_text_is_injected_text
    (k d : Z) (a0 : apple_t) (inp dl inp1 line tail : list ascii)
    (fuel : nat) :
  2 ≤ k ≤ MAX_K → dest a0 = DEST_EMPTY →
  fgets 64 inp = Some (dl, inp1) →
  parse_destination (chomp dl) k = Some d →
  inp1 = line ++ tail → NUL ∉ line → NL ∉ line →
  tail = [] ∨ (∃ rest, tail = NL :: rest) →
  (Z.to_nat k ≤ fuel)%nat →
  (∃ logs a' inp2 h,
     node_body 0 k a0 inp = (logs, Send a', inp2) ∧
     c_str (text a') = take (MAX_TEXT - 1) line ∧
     hops_to_delivery fuel k (mk_ring 0 a' inp2)
       = Some (h, (d, 0, take (MAX_TEXT - 1) line))) ∧
  ((length line < MAX_TEXT)%nat → take (MAX_TEXT - 1) line = line) ∧
  (length (take (MAX_TEXT - 1) line) + 1 ≤ MAX_TEXT)%nat ∧
  (∀ n b inp', dest b ≠ DEST_EMPTY → dest b ≠ n →
     node_body n k b inp' = ([LogForwarding n (dest b)], Send b, inp')).
Proof.
  intros Hk Ha0 Hget Hparse -> Hnul Hnl Htail Hfuel.
  split; [|split; [|split]].
  - pose proof (node_body_inject k a0 inp dl _ d Ha0 Hget Hparse) as Hinj.
    simpl in Hinj.
    rewrite ask_message_line in Hinj by done.
    assert (c_str (<[(MAX_TEXT - 1)%nat := NUL]>
                     (strncpy (text a0) (take (MAX_TEXT - 1) line) (MAX_TEXT - 1)))
            = take (MAX_TEXT - 1) line) as Htxt.
    { apply injected_text.
      - intros H. apply Hnul. by eapply elem_of_take_from.
      - rewrite length_take. lia. }
    apply parse_destination_sound in Hparse as [_ Hd]; [|unfold MAX_K, INT_MAX in *; lia].
    eexists _, _, _, _. split; [exact Hinj|]. split; [exact Htxt|].
    rewrite <- Htxt at 2.
    apply (hops_to_delivery_distance fuel k 0 (mk_apple d 0 _)); simpl; [lia|lia|].
    rewrite ring_distance_eq by lia. case_match; lia.
  - intros Hlen. apply take_ge. unfold MAX_TEXT in *. lia.
  - rewrite length_take. unfold MAX_TEXT. lia.
  - intros n b inp'. apply node_body_forward.
Qed.

Lemma delivered_text_is_injected_text_witness :
  ∃ logs a' inp2 h,
    node_body 0 3 seed (lit "2" ++ NL :: lit "hi" ++ [NL])
      = (logs, Send a', inp2) ∧
    c_str (text a') = lit "hi" ∧
    hops_to_delivery 3 3 (mk_ring 0 a' inp2) = Some (h, (2, 0, lit "hi")).
Proof.
  refine (proj1 (delivered_text_is_injected_text
                   3 2 seed (lit "2" ++ NL :: lit "hi" ++ [NL])
                   (lit "2" ++ [NL]) (lit "hi" ++ [NL]) (lit "hi") [NL] 3
                   _ _ _ _ _ _ _ _ _)).
  - unfold MAX_K; lia.
  - reflexivity.
  - reflexivity.
  - reflexivity.
  - reflexivity.
  - vm_compute. intros H. repeat (apply elem_of_cons in H as [H|H]; [discriminate H|]).
    by apply elem_of_nil in H.
  - vm_compute. intros H. repeat (apply elem_of_cons in H as [H|H]; [discriminate H|]).
    by apply elem_of_nil in H.
  - right. by exists [].
  - simpl. lia.
Defined.

(** ** One iteration of node_loop *)

Lemma node_exit_set_stop b g : node_exit (set_stop b g) = node_exit g.
Proof. done. Qed.

Lemma node_loop_stopped f g w :
  stop_requested g = true → node_loop (S f) g w = (node_exit g, Exited 0).
Proof. intros H. simpl. by rewrite H. Qed.

Lemma node_loop_read_fails f g w r s p rs :
  stop_requested g = false →
  read_full (w_reads w) false 0 sizeof_apple = Some (r, s, p, rs) → r < 0 →
  node_loop (S f) g w = (node_exit g, Exited 0).
Proof.
  intros Hs Hr Hneg. simpl. rewrite Hs, Hr.
  destruct (Z.ltb_spec r 0); [done|lia].
Qed.

Lemma node_loop_write_fails f g w s p rs a inbox logs a' inp1 wr s' p' ws :
  stop_requested g = false →
  read_full (w_reads w) false 0 sizeof_apple = Some (0, s, p, rs) →
  w_inbox w = a :: inbox →
  node_body (my_id g) (g_k g) a (w_stdin w) = (logs, Send a', inp1) →
  write_full (w_writes w) s 0 sizeof_apple = Some (wr, s', p', ws) → wr < 0 →
  node_loop (S f) g w =
  (EvRead (fd_or (read_fd g)) a :: (EvPrint <$> logs) ++ node_exit g, Exited 0).
Proof.
  intros Hs Hr Hin Hbody Hw Hneg. simpl. rewrite Hs, Hr, Hin. simpl.
  rewrite Hbody, Hw. destruct (Z.ltb_spec wr 0); [done|lia].
Qed.

Lemma node_loop_send f g w s p rs a inbox logs a' inp1 s' p' ws :
  stop_requested g = false →
  read_full (w_reads w) false 0 sizeof_apple = Some (0, s, p, rs) →
  w_inbox w = a :: inbox →
  node_body (my_id g) (g_k g) a (w_stdin w) = (logs, Send a', inp1) →
  write_full (w_writes w) s 0 sizeof_apple = Some (0, s', p', ws) →
  node_loop (S f) g w =
  (EvRead (fd_or (read_fd g)) a :: (EvPrint <$> logs)
     ++ EvWrite (fd_or (write_fd g)) a'
     :: (node_loop f (set_stop s' g) (mk_world inp1 rs ws inbox (w_waits w))).1,
   (node_loop f (set_stop s' g) (mk_world inp1 rs ws inbox (w_waits w))).2).
Proof.
  intros Hs Hr Hin Hbody Hw. simpl. rewrite Hs, Hr, Hin. simpl.
  rewrite Hbody, Hw. simpl. by destruct (node_loop f _ _).
Qed.

Lemma node_loop_quit f g w s p rs a inbox logs inp1 :
  stop_requested g = false →
  read_full (w_reads w) false 0 sizeof_apple = Some (0, s, p, rs) →
  w_inbox w = a :: inbox →
  node_body (my_id g) (g_k g) a (w_stdin w) = (logs, Quit, inp1) →
  node_loop (S f) g w =
  (EvRead (fd_or (read_fd g)) a :: (EvPrint <$> logs)
     ++ (sigint_parent_handler (set_stop s g) (w_waits w)).1,
   (sigint_parent_handler (set_stop s g) (w_waits w)).2).
Proof.
  intros Hs Hr Hin Hbody. simpl. rewrite Hs, Hr, Hin. simpl.
  rewrite Hbody. by destruct (sigint_parent_handler _ _).
Qed.

(** C3: a node that receives a token whose [dest] is its own id reports the
    sender and the text, then writes the token to its successor with [dest]
    set to -1, [origin] set to its own id and an empty string as text. *)
Theorem delivery_clears_the_token
    (f : nat) (g : globals) (w : world) (a : apple_t) (inbox : list apple_t)
    (s s' : bool) (p p' : Z) (rs : list rd_result) (ws : list wr_result) :
  0 ≤ my_id g → dest a = my_id g →
  stop_requested g = false → w_inbox w = a :: inbox →
  read_full (w_reads w) false 0 sizeof_apple = Some (0, s, p, rs) →
  write_full (w_writes w) s 0 sizeof_apple = Some (0, s', p', ws) →
  let cleared := mk_apple DEST_EMPTY (my_id g) (<[0%nat := NUL]> (text a)) in
  node_body (my_id g) (g_k g) a (w_stdin w) =
    ([LogReceived (my_id g) (origin a) (c_str (text a));
      LogProcessed (my_id g)], Send cleared, w_stdin w) ∧
  c_str (text cleared) = [] ∧
  ∃ t o,
    node_loop (S f) g w =
    (EvRead (fd_or (read_fd g)) a
       :: EvPrint (LogReceived (my_id g) (origin a) (c_str (text a)))
       :: EvPrint (LogProcessed (my_id g))
       :: EvWrite (fd_or (write_fd g)) cleared :: t, o).
Proof.
  intros Hid Hdest Hstop Hin Hr Hw cleared.
  pose proof (node_body_deliver (my_id g) (g_k g) a (w_stdin w) Hid Hdest) as Hb.
  split; [exact Hb|]. split; [apply c_str_cleared|].
  eexists _, _. by rewrite (node_loop_send f g w _ _ _ _ _ _ _ _ _ _ _ Hstop Hr Hin Hb Hw).
Qed.

Lemma delivery_clears_the_token_witness :
  ∃ t o,
    node_loop 1 (mk_globals [] 3 (Some (1, RD)) (Some (2, WR)) 2 false)
      (mk_world [] [RdBytes 1032] [WrBytes 1032]
         [mk_apple 2 0 (lit "hi" ++ [NUL])] []) =
    (EvRead (1, RD) (mk_apple 2 0 (lit "hi" ++ [NUL]))
       :: EvPrint (LogReceived 2 0 (lit "hi"))
       :: EvPrint (LogProcessed 2)
       :: EvWrite (2, WR) (mk_apple DEST_EMPTY 2 (NUL :: lit "i" ++ [NUL]))
       :: t, o).
Proof.
  refine (proj2 (proj2 (delivery_clears_the_token
            0 (mk_globals [] 3 (Some (1, RD)) (Some (2, WR)) 2 false)
            (mk_world [] [RdBytes 1032] [WrBytes 1032]
               [mk_apple 2 0 (lit "hi" ++ [NUL])] [])
            (mk_apple 2 0 (lit "hi" ++ [NUL])) [] false false
            1032 1032 [] [] _ _ _ _ _ _)));
    (reflexivity || (simpl; lia)).
Defined.

(** ** End of input and malformed destinations at the Injector *)

Lemma apple_eta a : mk_apple (dest a) (origin a) (text a) = a.
Proof. by destruct a. Qed.

Lemma node_body_dest_eof k a inp :
  dest a = DEST_EMPTY → fgets 64 inp = None →
  node_body 0 k a inp =
  ([LogReturnedEmpty 0; LogAskDest (k - 1)], Send a, inp).
Proof.
  intros He Hget. unfold node_body. rewrite He, Hget. simpl.
  by rewrite <- He, apple_eta.
Qed.

Lemma node_body_invalid k a inp dl inp1 :
  dest a = DEST_EMPTY → fgets 64 inp = Some (dl, inp1) →
  chomp dl ≠ lit "q" → chomp dl ≠ lit "Q" →
  parse_destination (chomp dl) k = None →
  node_body 0 k a inp =
  ([LogReturnedEmpty 0; LogAskDest (k - 1); LogInvalidDest (chomp dl)],
   Send a, inp1).
Proof.
  intros He Hget Hq HQ Hparse. unfold node_body. rewrite He, Hget. simpl.
  rewrite !bool_decide_eq_false_2 by done. simpl. by rewrite Hparse.
Qed.

Lemma ask_message_at_eof inp :
  fgets MAX_TEXT inp = None → ask_message inp = ([], inp).
Proof. intros H. unfold ask_message. by rewrite H. Qed.


(** Counterexample to C4 as stated: when the input ends at the message
    prompt the token is not sent on empty.  With the console holding only
    the line "1", node 0 of a ring of 2 sends a token addressed to node 1. *)
Lemma eof_at_message_prompt_injects : ¬ eof_reemits_empty.
Proof.
  intros H.
  destruct (H 2 seed (lit "1" ++ [NL])) as (logs & a' & inp' & Hbody & Hd).
  - unfold MAX_K. lia.
  - done.
  - right. by exists (lit "1" ++ [NL]), [], 1.
  - vm_compute in Hbody. injection Hbody as _ <- _. discriminate Hd.
Qed.

(** C4, as the code has it: at the end of the input the destination prompt
    makes the Injector send the token on as it is, empty; the message prompt,
    reached after a line that [parse_destination] reads as the node [d],
    makes it send a token addressed to that very [d], from node 0, with an
    empty text, and leaves the console where the destination line ended.
    Either way the Injector goes on with the next iteration of its loop. *)
Theorem eof_while_prompting
    (k : Z) (a : apple_t) (inp : list ascii) :
  2 ≤ k ≤ MAX_K → dest a = DEST_EMPTY →
  (eof_at_dest_prompt inp →
     node_body 0 k a inp =
     ([LogReturnedEmpty 0; LogAskDest (k - 1)], Send a, inp)) ∧
  (∀ dl inp1 d,
     fgets 64 inp = Some (dl, inp1) →
     parse_destination (chomp dl) k = Some d →
     fgets MAX_TEXT inp1 = None →
     ∃ txt,
       node_body 0 k a inp =
       ([LogReturnedEmpty 0; LogAskDest (k - 1); LogAskMessage;
         LogInjecting 0 d []], Send (mk_apple d 0 txt), inp1) ∧
       dest_syntax (chomp dl) d ∧ 0 ≤ d < k ∧ c_str txt = [] ∧
       (length (text a) = MAX_TEXT → txt = replicate MAX_TEXT NUL)) ∧
  (eof_at_dest_prompt inp ∨ eof_at_message_prompt k inp →
     ∀ f g w inbox s s' p p' rs ws,
       my_id g = 0 → g_k g = k → stop_requested g = false →
       w_stdin w = inp → w_inbox w = a :: inbox →
       read_full (w_reads w) false 0 sizeof_apple = Some (0, s, p, rs) →
       write_full (w_writes w) s 0 sizeof_apple = Some (0, s', p', ws) →
       ∃ logs a' inp',
         node_body 0 k a inp = (logs, Send a', inp') ∧
         node_loop (S f) g w =
         (EvRead (fd_or (read_fd g)) a :: (EvPrint <$> logs)
            ++ EvWrite (fd_or (write_fd g)) a'
            :: (node_loop f (set_stop s' g)
                  (mk_world inp' rs ws inbox (w_waits w))).1,
          (node_loop f (set_stop s' g)
             (mk_world inp' rs ws inbox (w_waits w))).2)).
Proof.
  intros Hk He.
  assert (∀ dl inp1 d,
     fgets 64 inp = Some (dl, inp1) →
     parse_destination (chomp dl) k = Some d →
     fgets MAX_TEXT inp1 = None →
     ∃ txt,
       node_body 0 k a inp =
       ([LogReturnedEmpty 0; LogAskDest (k - 1); LogAskMessage;
         LogInjecting 0 d []], Send (mk_apple d 0 txt), inp1) ∧
       dest_syntax (chomp dl) d ∧ 0 ≤ d < k ∧ c_str txt = [] ∧
       (length (text a) = MAX_TEXT → txt = replicate MAX_TEXT NUL)) as Hmsg.
  { intros dl inp1 d Hget Hparse Heof.
    pose proof (node_body_inject k a inp dl inp1 d He Hget Hparse) as Hb.
    cbv zeta in Hb. rewrite (ask_message_at_eof _ Heof) in Hb.
    cbn [fst snd] in Hb.
    assert (c_str (<[(MAX_TEXT - 1)%nat := NUL]>
                     (strncpy (text a) [] (MAX_TEXT - 1))) = []) as Htxt.
    { apply injected_text; [apply not_elem_of_nil|simpl; lia]. }
    rewrite Htxt in Hb.
    apply parse_destination_sound in Hparse as [Hsyn Hd];
      [|unfold MAX_K, INT_MAX in *; lia].
    eexists. split; [exact Hb|]. split; [done|]. split; [done|].
    split; [done|]. intros Hlen.
    apply list_eq. intros i. unfold strncpy.
    rewrite app_nil_l, take_replicate, Nat.min_id.
    destruct (decide (i = (MAX_TEXT - 1)%nat)) as [->|Hi].
    - rewrite list_lookup_insert_eq
        by (rewrite length_app, length_replicate, length_drop, Hlen;
            unfold MAX_TEXT; lia).
      symmetry. apply lookup_replicate_2. unfold MAX_TEXT. lia.
    - rewrite list_lookup_insert_ne by done.
      destruct (decide (i < MAX_TEXT - 1)%nat) as [Hlt|Hge].
      + rewrite lookup_app_l by (rewrite length_replicate; lia).
        rewrite !lookup_replicate_2; [done|unfold MAX_TEXT in *; lia|done].
      + rewrite lookup_ge_None_2
          by (rewrite length_app, length_replicate, length_drop, Hlen;
              unfold MAX_TEXT in *; lia).
        symmetry. apply lookup_ge_None_2. rewrite length_replicate.
        unfold MAX_TEXT in *. lia. }
  split; [by apply node_body_dest_eof|]. split; [exact Hmsg|].
  intros Heof f g w inbox s s' p p' rs ws Hid Hgk Hstop Hinp Hin Hr Hw.
  assert (∃ logs a' inp', node_body 0 k a inp = (logs, Send a', inp'))
    as (logs & a' & inp' & Hb).
  { destruct Heof as [Hd|(dl & inp1 & d & Hget & Hparse & Hm)].
    - eexists _, _, _. by apply node_body_dest_eof.
    - destruct (Hmsg dl inp1 d Hget Hparse Hm) as (txt & Hb & _).
      by eexists _, _, _. }
  exists logs, a', inp'. split; [done|].
  apply (node_loop_send f g w s p rs a inbox logs a' inp' s' p' ws);
    try done. by rewrite Hid, Hgk, Hinp.
Qed.

Lemma eof_while_prompting_witness :
  ∃ txt,
    node_body 0 2 seed (lit "1" ++ [NL]) =
    ([LogReturnedEmpty 0; LogAskDest (2 - 1); LogAskMessage;
      LogInjecting 0 1 []], Send (mk_apple 1 0 txt), []) ∧
    dest_syntax (chomp (lit "1" ++ [NL])) 1 ∧ 0 ≤ 1 < 2 ∧ c_str txt = [] ∧
    (length (text seed) = MAX_TEXT → txt = replicate MAX_TEXT NUL).
Proof.
  refine (proj1 (proj2 (eof_while_prompting 2 seed (lit "1" ++ [NL]) _ _))
            (lit "1" ++ [NL]) [] 1 _ _ _).
  - unfold MAX_K. lia.
  - reflexivity.
  - reflexivity.
  - reflexivity.
  - reflexivity.
Defined.

(** ** An empty token going round *)

Lemma ring_step_relay_empty k j a inp :
  0 ≤ j → j + 1 < k → dest a = DEST_EMPTY →
  ring_step k (mk_ring j a inp) =
  ([LogEmptyForward (j + 1)], Some (mk_ring (j + 1) a inp)).
Proof.
  intros Hj Hk He. unfold ring_step. simpl.
  rewrite reader_of_succ, Z.mod_small by lia.
  rewrite node_body_relay_empty by (done || lia). done.
Qed.

Lemma ring_run_relays_empty (m : nat) k j a inp :
  0 ≤ j → j + Z.of_nat m < k → dest a = DEST_EMPTY →
  ring_run m k (mk_ring j a inp) =
  (LogEmptyForward <$> seqZ (j + 1) (Z.of_nat m),
   Some (mk_ring (j + Z.of_nat m) a inp)).
Proof.
  revert j. induction m as [|m IH]; intros j Hj Hk He.
  - simpl. by rewrite Z.add_0_r.
  - simpl ring_run. rewrite ring_step_relay_empty by (done || lia).
    rewrite IH by (done || lia).
    rewrite (seqZ_cons (j + 1)) by lia. simpl.
    do 3 f_equal; [f_equal; lia | lia].
Qed.

Lemma ring_step_injector k a inp :
  2 ≤ k →
  ring_step k (mk_ring (k - 1) a inp) =
  match node_body 0 k a inp with
  | (logs, Send a', inp') => (logs, Some (mk_ring 0 a' inp'))
  | (logs, Quit, _) => (logs, None)
  end.
Proof.
  intros Hk. unfold ring_step. simpl. rewrite reader_of_succ by lia.
  replace (k - 1 + 1) with k by lia. rewrite Z.mod_same by lia. done.
Qed.



(** ** Transfers: read_full and write_full *)

Lemma read_full_done rs stop p left :
  left ≤ 0 → read_full rs stop p left = Some (0, stop, p, rs).
Proof. intros H. destruct rs; simpl; destruct (Z.leb_spec left 0); done || lia. Qed.

Lemma write_full_done ws stop p left :
  left ≤ 0 → write_full ws stop p left = Some (0, stop, p, ws).
Proof. intros H. destruct ws; simpl; destruct (Z.leb_spec left 0); done || lia. Qed.

Lemma bytes_read_nonneg ms : 0 ≤ bytes_read ms.
Proof. induction ms; simpl; lia. Qed.

Lemma bytes_written_nonneg ns : 0 ≤ bytes_written ns.
Proof. induction ns; simpl; lia. Qed.

Lemma read_full_partials ms rs stop p left :
  bytes_read ms < left →
  read_full ((RdBytes <$> ms) ++ rs) stop p left =
  read_full rs stop (p + bytes_read ms) (left - bytes_read ms).
Proof.
  revert p left. induction ms as [|m ms IH]; intros p left Hlt; simpl in *.
  - f_equal; lia.
  - pose proof (bytes_read_nonneg ms).
    destruct (Z.leb_spec left 0); [lia|].
    rewrite Z.min_l by lia. rewrite IH by lia. f_equal; lia.
Qed.

Lemma write_full_partials ns ws stop p left :
  bytes_written ns < left →
  write_full ((WrBytes <$> ns) ++ ws) stop p left =
  write_full ws stop (p + bytes_written ns) (left - bytes_written ns).
Proof.
  revert p left. induction ns as [|n ns IH]; intros p left Hlt; simpl in *.
  - f_equal; lia.
  - pose proof (bytes_written_nonneg ns).
    destruct (Z.leb_spec left 0); [lia|].
    rewrite Z.min_l by lia. rewrite IH by lia. f_equal; lia.
Qed.

Lemma write_killed_partials ns ws left :
  bytes_written ns < left →
  write_killed ((WrBytes <$> ns) ++ ws) left =
  write_killed ws (left - bytes_written ns).
Proof.
  revert left. induction ns as [|n ns IH]; intros left Hlt; simpl in *.
  - f_equal; lia.
  - pose proof (bytes_written_nonneg ns).
    destruct (Z.leb_spec left 0); [lia|].
    rewrite Z.min_l by lia. rewrite IH by lia. f_equal; lia.
Qed.

Lemma read_full_moves_all ms m rs stop p left :
  bytes_read ms < left ≤ bytes_read ms + Z.pos m →
  read_full ((RdBytes <$> ms) ++ RdBytes m :: rs) stop p left =
  Some (0, stop, p + left, rs).
Proof.
  intros Hlt. rewrite read_full_partials by lia. simpl.
  destruct (Z.leb_spec (left - bytes_read ms) 0); [lia|].
  rewrite Z.min_r by lia. rewrite read_full_done by lia. do 3 f_equal. lia.
Qed.

Lemma write_full_moves_all ns n ws stop p left :
  bytes_written ns < left ≤ bytes_written ns + Z.of_N n →
  write_full ((WrBytes <$> ns) ++ WrBytes n :: ws) stop p left =
  Some (0, stop, p + left, ws).
Proof.
  intros Hlt. rewrite write_full_partials by lia. simpl.
  destruct (Z.leb_spec (left - bytes_written ns) 0); [lia|].
  rewrite Z.min_r by lia. rewrite write_full_done by lia. do 3 f_equal. lia.
Qed.

Lemma read_full_closed ms rs stop p left :
  bytes_read ms < left →
  read_full ((RdBytes <$> ms) ++ RdClosed :: rs) stop p left =
  Some (-1, stop, p + bytes_read ms, rs).
Proof.
  intros Hlt. rewrite read_full_partials by lia. simpl.
  destruct (Z.leb_spec (left - bytes_read ms) 0); [lia|done].
Qed.

Lemma write_full_error ns ws stop p left :
  bytes_written ns < left →
  write_full ((WrBytes <$> ns) ++ WrError :: ws) stop p left =
  Some (-1, stop, p + bytes_written ns, ws).
Proof.
  intros Hlt. rewrite write_full_partials by lia. simpl.
  destruct (Z.leb_spec (left - bytes_written ns) 0); [lia|done].
Qed.

(** A transfer that returns 0 has moved the whole count. *)
Lemma read_full_result rs stop p left r stop' p' rs' :
  0 ≤ left → read_full rs stop p left = Some (r, stop', p', rs') →
  (r = 0 ∧ p' = p + left) ∨ (r = -1 ∧ p ≤ p' < p + left).
Proof.
  revert stop p left. induction rs as [|x rs IH]; intros stop p left Hl; simpl.
  - destruct (Z.leb_spec left 0); [|done]. intros [= <- <- <- <-]. left. lia.
  - destruct (Z.leb_spec left 0). { intros [= <- <- <- <-]. left. lia. }
    destruct x as [m| |usr1|].
    + intros Hrec. apply IH in Hrec; lia.
    + intros [= <- <- <- <-]. right. lia.
    + destruct (stop || usr1).
      * intros [= <- <- <- <-]. right. lia.
      * intros Hrec. apply IH in Hrec; lia.
    + intros [= <- <- <- <-]. right. lia.
Qed.

Lemma write_full_result ws stop p left r stop' p' ws' :
  0 ≤ left → write_full ws stop p left = Some (r, stop', p', ws') →
  (r = 0 ∧ p' = p + left) ∨ (r = -1 ∧ p ≤ p' < p + left).
Proof.
  revert stop p left. induction ws as [|x ws IH]; intros stop p left Hl; simpl.
  - destruct (Z.leb_spec left 0); [|done]. intros [= <- <- <- <-]. left. lia.
  - destruct (Z.leb_spec left 0). { intros [= <- <- <- <-]. left. lia. }
    destruct x as [n|usr1| |].
    + intros Hrec. apply IH in Hrec; lia.
    + intros Hrec. apply IH in Hrec; lia.
    + intros [= <- <- <- <-]. right. lia.
    + done.
Qed.

(** Partial reads and writes are repeated until the whole record of
    [sizeof_apple] bytes has been moved; a read that returns 0 and a write
    that returns an error other than EINTR make the transfer fail, and the
    node then leaves its loop: it closes its two descriptors and exits,
    with no further read or write and without signalling any other
    process. *)
Theorem transport_error_ends_the_node :
  (∀ ms m rs stop p,
     bytes_read ms < sizeof_apple ≤ bytes_read ms + Z.pos m →
     read_full ((RdBytes <$> ms) ++ RdBytes m :: rs) stop p sizeof_apple
     = Some (0, stop, p + sizeof_apple, rs)) ∧
  (∀ ns n ws stop p,
     bytes_written ns < sizeof_apple ≤ bytes_written ns + Z.of_N n →
     write_full ((WrBytes <$> ns) ++ WrBytes n :: ws) stop p sizeof_apple
     = Some (0, stop, p + sizeof_apple, ws)) ∧
  (∀ rs stop p r stop' p' rs',
     read_full rs stop p sizeof_apple = Some (r, stop', p', rs') →
     r = 0 → p' = p + sizeof_apple) ∧
  (∀ ws stop p r stop' p' ws',
     write_full ws stop p sizeof_apple = Some (r, stop', p', ws') →
     r = 0 → p' = p + sizeof_apple) ∧
  (∀ ms rs stop p,
     bytes_read ms < sizeof_apple →
     read_full ((RdBytes <$> ms) ++ RdClosed :: rs) stop p sizeof_apple
     = Some (-1, stop, p + bytes_read ms, rs)) ∧
  (∀ ns ws stop p,
     bytes_written ns < sizeof_apple →
     write_full ((WrBytes <$> ns) ++ WrError :: ws) stop p sizeof_apple
     = Some (-1, stop, p + bytes_written ns, ws)) ∧
  (∀ f g w r s p rs,
     stop_requested g = false →
     read_full (w_reads w) false 0 sizeof_apple = Some (r, s, p, rs) →
     r < 0 →
     node_loop (S f) g w =
     (EvPrint (LogExiting (my_id g))
        :: close_fd (read_fd g) ++ close_fd (write_fd g) ++ [EvExit 0],
      Exited 0)) ∧
  (∀ f g w s p rs a inbox logs a' inp1 wr s' p' ws,
     stop_requested g = false →
     read_full (w_reads w) false 0 sizeof_apple = Some (0, s, p, rs) →
     w_inbox w = a :: inbox →
     node_body (my_id g) (g_k g) a (w_stdin w) = (logs, Send a', inp1) →
     write_full (w_writes w) s 0 sizeof_apple = Some (wr, s', p', ws) →
     wr < 0 →
     node_loop (S f) g w =
     (EvRead (fd_or (read_fd g)) a :: (EvPrint <$> logs)
        ++ EvPrint (LogExiting (my_id g))
        :: close_fd (read_fd g) ++ close_fd (write_fd g) ++ [EvExit 0],
      Exited 0)) ∧
  (∀ g rfd wfd,
     read_fd g = Some rfd → write_fd g = Some wfd →
     node_exit g =
     [EvPrint (LogExiting (my_id g)); EvClose rfd; EvClose wfd; EvExit 0]).
Proof.
  assert (0 ≤ sizeof_apple) as Hsz by (vm_compute; discriminate).
  repeat apply conj.
  - intros. by apply read_full_moves_all.
  - intros. by apply write_full_moves_all.
  - intros ??????? H ->. apply read_full_result in H; [lia|done].
  - intros ??????? H ->. apply write_full_result in H; [lia|done].
  - intros. by apply read_full_closed.
  - intros. by apply write_full_error.
  - intros f g w r s p rs Hs Hr Hneg.
    by rewrite (node_loop_read_fails f g w r s p rs).
  - intros f g w s p rs a inbox logs a' inp1 wr s' p' ws Hs Hr Hin Hb Hw Hneg.
    by rewrite (node_loop_write_fails f g w s p rs a inbox logs a' inp1 wr s' p' ws).
  - intros g rfd wfd Hr Hw. unfold node_exit. by rewrite Hr, Hw.
Qed.

Lemma transport_error_ends_the_node_witness :
  node_loop 1 (mk_globals [] 3 (Some (0, RD)) (Some (1, WR)) 1 false)
    (mk_world [] [RdBytes 1000; RdClosed] [] [] []) =
  ([EvPrint (LogExiting 1); EvClose (0, RD); EvClose (1, WR); EvExit 0],
   Exited 0).
Proof.
  refine (proj1 (proj2 (proj2 (proj2 (proj2 (proj2 (proj2
            transport_error_ends_the_node))))))
            0%nat (mk_globals [] 3 (Some (0, RD)) (Some (1, WR)) 1 false)
            (mk_world [] [RdBytes 1000; RdClosed] [] [] [])
            (-1) false 1000 [] _ _ _);
    (reflexivity || lia).
Defined.

(** ** A write to a pipe that nobody reads *)





(** ** Shutdown: sigint_parent_handler *)

Lemma wait_loop_reaps order children :
  (∀ c, c ∈ children → c ∈ order) →
  ∃ reaped,
    wait_loop order children = (EvWait <$> reaped, true) ∧
    (∀ p, p ∈ reaped ↔ p ∈ children) ∧ NoDup reaped.
Proof.
  revert children. induction order as [|p order IH]; intros children Hall.
  - destruct children as [|c children].
    + exists []. simpl. split; [done|]. split; [done|constructor].
    + specialize (Hall c). rewrite elem_of_nil in Hall. destruct Hall. left.
  - destruct children as [|c children].
    { exists []. simpl. split; [done|]. split; [done|constructor]. }
    cbn [wait_loop]. set (ch := c :: children) in *.
    destruct (bool_decide (p ∈ ch)) eqn:Ein.
    + apply bool_decide_eq_true in Ein.
      destruct (IH (filter (λ c, c ≠ p) ch)) as (reaped & Hw & Hset & Hnd).
      { intros x [Hne Hx]%list_elem_of_filter.
        specialize (Hall x Hx). apply elem_of_cons in Hall as [->|]; done. }
      exists (p :: reaped). rewrite Hw. split; [done|]. split.
      * intros x. rewrite elem_of_cons, Hset, list_elem_of_filter.
        destruct (decide (x = p)) as [->|]; tauto.
      * constructor; [|done]. rewrite Hset, list_elem_of_filter. by intros [? _].
    + apply bool_decide_eq_false in Ein. apply IH.
      intros x Hx. specialize (Hall x Hx).
      apply elem_of_cons in Hall as [->|]; done.
Qed.

Lemma wait_loop_blocks order children c :
  c ∈ children → c ∉ order →
  ∃ reaped, wait_loop order children = (EvWait <$> reaped, false).
Proof.
  revert children. induction order as [|p order IH]; intros children Hc Hno.
  - destruct children; [by apply elem_of_nil in Hc|]. by exists [].
  - apply not_elem_of_cons in Hno as [Hne Hno].
    destruct children as [|c' children]; [by apply elem_of_nil in Hc|].
    cbn [wait_loop]. set (ch := c' :: children) in *.
    destruct (bool_decide (p ∈ ch)).
    + destruct (IH (filter (λ x, x ≠ p) ch)) as [reaped Hw]; [|done|].
      { by apply list_elem_of_filter. }
      exists (p :: reaped). by rewrite Hw.
    + by apply IH.
Qed.

Lemma filter_all_pos (pids : list Z) :
  Forall (λ p, 0 < p) pids → filter (λ p, 0 < p) pids = pids.
Proof.
  induction 1 as [|p pids Hp _ IH]; [done|].
  rewrite filter_cons_True by done. by rewrite IH.
Qed.

Lemma handler_ignores_stop b g order :
  sigint_parent_handler (set_stop b g) order = sigint_parent_handler g order.
Proof. done. Qed.

(** C9: the handler of the interrupt first signals every worker, then
    closes the Injector's two descriptors, then reaps the workers, and only
    when all of them have terminated does it exit, with status 0; the quit
    directive read while the token is empty runs exactly this handler. *)
Theorem shutdown_sequence
    (g : globals) (order : list Z) (rfd wfd : endpoint) :
  read_fd g = Some rfd → write_fd g = Some wfd →
  Forall (λ p, 0 < p) (child_pids g) →
  ((∀ c, c ∈ child_pids g → c ∈ order) →
   ∃ reaped,
     sigint_parent_handler g order =
     (EvPrint LogCtrlC :: (EvKill <$> child_pids g)
        ++ [EvClose rfd; EvClose wfd] ++ (EvWait <$> reaped) ++ [EvExit 0],
      Exited 0) ∧
     (∀ p, p ∈ reaped ↔ p ∈ child_pids g) ∧ NoDup reaped) ∧
  (∀ c, c ∈ child_pids g → c ∉ order →
   ∃ reaped,
     sigint_parent_handler g order =
     (EvPrint LogCtrlC :: (EvKill <$> child_pids g)
        ++ [EvClose rfd; EvClose wfd] ++ (EvWait <$> reaped),
      Blocked)) ∧
  (∀ f w a inbox s p rs dl inp1,
     my_id g = 0 → stop_requested g = false → dest a = DEST_EMPTY →
     w_inbox w = a :: inbox → w_waits w = order →
     read_full (w_reads w) false 0 sizeof_apple = Some (0, s, p, rs) →
     fgets 64 (w_stdin w) = Some (dl, inp1) →
     chomp dl = lit "q" ∨ chomp dl = lit "Q" →
     node_loop (S f) g w =
     (EvRead rfd a :: EvPrint (LogReturnedEmpty 0)
        :: EvPrint (LogAskDest (g_k g - 1))
        :: (sigint_parent_handler g order).1,
      (sigint_parent_handler g order).2)).
Proof.
  intros Hr Hw Hpos. split; [|split].
  - intros Hall. destruct (wait_loop_reaps order _ Hall) as (reaped & Hwl & Hset & Hnd).
    exists reaped. unfold sigint_parent_handler.
    by rewrite Hwl, Hr, Hw, filter_all_pos.
  - intros c Hc Hno.
    destruct (wait_loop_blocks order _ c Hc Hno) as [reaped Hwl].
    exists reaped. unfold sigint_parent_handler.
    by rewrite Hwl, Hr, Hw, filter_all_pos.
  - intros f w a inbox s p rs dl inp1 Hid Hstop He Hin Hwaits Hread Hget Hquit.
    assert (node_body (my_id g) (g_k g) a (w_stdin w)
            = ([LogReturnedEmpty 0; LogAskDest (g_k g - 1)], Quit, inp1)) as Hb.
    { unfold node_body. rewrite He, Hid, Hget. simpl.
      destruct Hquit as [-> | ->]; done. }
    rewrite (node_loop_quit f g w s p rs a inbox _ inp1 Hstop Hread Hin Hb).
    by rewrite handler_ignores_stop, Hwaits, Hr.
Qed.

Lemma shutdown_sequence_witness :
  ∃ reaped,
    sigint_parent_handler
      (mk_globals [101; 102] 3 (Some (2, RD)) (Some (0, WR)) 0 false)
      [102; 101] =
    (EvPrint LogCtrlC :: (EvKill <$> [101; 102])
       ++ [EvClose (2, RD); EvClose (0, WR)] ++ (EvWait <$> reaped)
       ++ [EvExit 0], Exited 0) ∧
    (∀ p, p ∈ reaped ↔ p ∈ [101; 102]) ∧ NoDup reaped.
Proof.
  refine (proj1 (shutdown_sequence
            (mk_globals [101; 102] 3 (Some (2, RD)) (Some (0, WR)) 0 false)
            [102; 101] (2, RD) (0, WR) _ _ _) _).
  - reflexivity.
  - reflexivity.
  - simpl. repeat constructor.
  - simpl. intros c Hc. rewrite !elem_of_cons in *. tauto.
Defined.

(** ** The wiring made by main *)

Lemma elem_of_all_fds k j e : (j, e) ∈ all_fds k ↔ 0 ≤ j < k.
Proof.
  unfold all_fds. rewrite elem_of_list_to_set, list_elem_of_bind. split.
  - intros (j' & Hin & Hj'%elem_of_seqZ).
    rewrite !elem_of_cons, elem_of_nil in Hin.
    destruct Hin as [[= -> _] | [[= -> _] | []]]; lia.
  - intros Hj. exists j. split; [|apply elem_of_seqZ; lia].
    destruct e; rewrite !elem_of_cons; auto.
Qed.

Lemma elem_of_child_close_step k i fds j x :
  x ∈ child_close_step k i fds j ↔
  x ∈ fds ∧ (x.1 = j → x = (read_pipe k i, RD) ∨ x = (i, WR)).
Proof.
  destruct x as [j' e]. unfold child_close_step. simpl.
  repeat case_bool_decide; destruct e;
    rewrite ?elem_of_difference, ?elem_of_singleton, !pair_equal_spec;
    intuition congruence.
Qed.

Lemma elem_of_parent_close_step k fds j x :
  x ∈ parent_close_step k fds j ↔
  x ∈ fds ∧ (x.1 = j → x = (k - 1, RD) ∨ x = (0, WR)).
Proof.
  destruct x as [j' e]. unfold parent_close_step. simpl.
  repeat case_bool_decide; destruct e;
    rewrite ?elem_of_difference, ?elem_of_singleton, !pair_equal_spec;
    intuition congruence.
Qed.

Lemma elem_of_child_close_loop k i js fds x :
  x ∈ foldl (child_close_step k i) fds js ↔
  x ∈ fds ∧ (x.1 ∈ js → x = (read_pipe k i, RD) ∨ x = (i, WR)).
Proof.
  revert fds. induction js as [|j js IH]; intros fds; simpl.
  - rewrite elem_of_nil. tauto.
  - rewrite IH, elem_of_child_close_step, elem_of_cons. intuition auto.
Qed.

Lemma elem_of_parent_close_loop k js fds x :
  x ∈ foldl (parent_close_step k) fds js ↔
  x ∈ fds ∧ (x.1 ∈ js → x = (k - 1, RD) ∨ x = (0, WR)).
Proof.
  revert fds. induction js as [|j js IH]; intros fds; simpl.
  - rewrite elem_of_nil. tauto.
  - rewrite IH, elem_of_parent_close_step, elem_of_cons. intuition auto.
Qed.

Lemma child_close_all k i :
  0 ≤ i < k →
  child_close k i (all_fds k) = {[ (read_pipe k i, RD); (i, WR) ]}.
Proof.
  intros Hi. pose proof (read_pipe_range k i Hi) as Hr.
  apply set_eq. intros [j e]. unfold child_close.
  rewrite elem_of_child_close_loop, elem_of_all_fds, elem_of_seqZ.
  rewrite elem_of_union, !elem_of_singleton. simpl. split.
  - intros [Hj Hkeep]. apply Hkeep. lia.
  - intros [[= -> ->] | [= -> ->]]; (split; [lia|auto]).
Qed.

Lemma parent_close_all k :
  2 ≤ k → parent_close k (all_fds k) = {[ (read_pipe k 0, RD); (0, WR) ]}.
Proof.
  intros Hk. rewrite read_pipe_eq by lia. simpl.
  apply set_eq. intros [j e]. unfold parent_close.
  rewrite elem_of_parent_close_loop, elem_of_all_fds, elem_of_seqZ.
  rewrite elem_of_union, !elem_of_singleton. simpl. split.
  - intros [Hj Hkeep]. apply Hkeep. lia.
  - intros [[= -> ->] | [= -> ->]]; (split; [lia|auto]).
Qed.

Lemma pipe_loop_ok env js :
  (∀ j, pipe_ok env j = true) → pipe_loop env js = (EvPipe <$> js, None).
Proof.
  intros Hok. induction js as [|j js IH]; simpl; [done|].
  by rewrite Hok, IH.
Qed.

Lemma fork_loop_ok env k ids pids :
  (∀ i, is_Some (fork_pid env i)) → Forall (λ p, 0 < p) pids →
  ∃ t ch pids',
    fork_loop env k ids pids = (t, ch, pids', None) ∧
    Forall2 (λ i c, ∃ ps, c = child_process k i ps) ids ch ∧
    Forall (λ p, 0 < p) pids' ∧
    length pids' = (length pids + length ids)%nat ∧
    omap pipe_of t = [].
Proof.
  intros Hok. revert pids. induction ids as [|i ids IH]; intros pids Hpos.
  - exists [], [], pids. simpl. repeat split; (done || lia || constructor).
  - simpl. destruct (Hok i) as [pid Hpid]. rewrite Hpid.
    destruct (IH (pids ++ [Z.pos pid])) as (t & ch & pids' & Hf & Hch & Hp & Hlen & Ht).
    { apply Forall_app. split; [done|]. constructor; [lia|constructor]. }
    rewrite Hf. eexists _, _, _. split; [done|].
    split; [constructor; [by eexists|done]|]. split; [done|].
    split; [|done]. rewrite Hlen, length_app. simpl. lia.
Qed.

Lemma omap_pipe_of_pipes (js : list Z) : omap pipe_of (EvPipe <$> js) = js.
Proof. induction js as [|j js IH]; simpl; [done|]. f_equal. exact IH. Qed.

(** What holds of a process wired as node [i] of a ring of [k]. *)
Lemma wired_child k i ps :
  0 ≤ i < k →
  let p := child_process k i ps in
  my_id (p_globals p) = i ∧
  p_fds p = {[ (read_pipe k i, RD); (i, WR) ]} ∧
  read_fd (p_globals p) = Some (read_pipe k i, RD) ∧
  write_fd (p_globals p) = Some (i, WR).
Proof. intros Hi. simpl. by rewrite child_close_all. Qed.

Lemma wired_parent k ps :
  2 ≤ k →
  let p := parent_process k ps in
  my_id (p_globals p) = 0 ∧
  p_fds p = {[ (read_pipe k 0, RD); (0, WR) ]} ∧
  read_fd (p_globals p) = Some (read_pipe k 0, RD) ∧
  write_fd (p_globals p) = Some (0, WR).
Proof. intros Hk. simpl. by rewrite parent_close_all. Qed.

Lemma main_startup_ok env inp k rest :
  scanf_d inp = ScanInt k rest → 2 ≤ k ≤ MAX_K →
  (∀ j, pipe_ok env j = true) → (∀ i, is_Some (fork_pid env i)) →
  ∃ t pids children,
    main_startup env inp
      = (t, RingCreated k (parent_process k pids) children (discard_line rest)) ∧
    omap pipe_of t = seqZ 0 k ∧
    Forall2 (λ i c, ∃ ps, c = child_process k i ps) (seqZ 1 (k - 1)) children ∧
    Forall (λ p, 0 < p) pids ∧ length pids = Z.to_nat (k - 1).
Proof.
  intros Hscan Hk Hpipe Hfork. unfold main_startup. rewrite Hscan.
  destruct (Z.ltb_spec k 2); [lia|]. destruct (Z.ltb_spec MAX_K k); [lia|].
  simpl orb. cbv iota. rewrite pipe_loop_ok by done.
  destruct (fork_loop_ok env k (seqZ 1 (k - 1)) [] Hfork)
    as (t & ch & pids & Hf & Hch & Hpos & Hlen & Ht); [constructor|].
  rewrite Hf. eexists _, pids, ch. split; [done|]. split; [|split; [done|split; [done|]]].
  - rewrite !omap_app. simpl. rewrite omap_pipe_of_pipes, Ht. simpl.
    by rewrite app_nil_r.
  - rewrite Hlen, length_seqZ. simpl. lia.
Qed.

(** C8: for every [k] of [2, MAX_K], when the system calls succeed, [main]
    makes [k] pipes and the [k] processes with ids 0..k-1; each process
    keeps open exactly the read end of its predecessor's pipe and the write
    end of its own, so that pipe [j] is written only by node [j] and read
    only by node [(j + 1) mod k], and no process holds both ends of one
    pipe. *)
Theorem ring_wiring
    (env : sysenv) (inp rest : list ascii) (k : Z) :
  scanf_d inp = ScanInt k rest → 2 ≤ k ≤ MAX_K →
  (∀ j, pipe_ok env j = true) → (∀ i, is_Some (fork_pid env i)) →
  ∃ t parent children,
    main_startup env inp
      = (t, RingCreated k parent children (discard_line rest)) ∧
    omap pipe_of t = seqZ 0 k ∧
    (my_id ∘ p_globals) <$> (parent :: children) = seqZ 0 k ∧
    (∀ p, p ∈ parent :: children →
       let i := my_id (p_globals p) in
       p_fds p = {[ (read_pipe k i, RD); (i, WR) ]} ∧
       size (p_fds p) = 2%nat ∧
       read_fd (p_globals p) = Some (read_pipe k i, RD) ∧
       write_fd (p_globals p) = Some (i, WR) ∧
       read_pipe k i ≠ i) ∧
    (∀ j p, 0 ≤ j < k → p ∈ parent :: children →
       ((j, WR) ∈ p_fds p ↔ my_id (p_globals p) = j) ∧
       ((j, RD) ∈ p_fds p ↔ my_id (p_globals p) = (j + 1) `mod` k)).
Proof.
  intros Hscan Hk Hpipe Hfork.
  destruct (main_startup_ok env inp k rest Hscan Hk Hpipe Hfork)
    as (t & pids & ch & Hmain & Hpipes & Hch & Hpos & Hlen).
  exists t, (parent_process k pids), ch.
  assert ((my_id ∘ p_globals) <$> ch = seqZ 1 (k - 1)) as Hids.
  { clear -Hch. induction Hch as [|i c ids ch [ps ->] _ IH]; [done|].
    rewrite fmap_cons, IH. done. }
  assert (∀ p, p ∈ parent_process k pids :: ch →
            0 ≤ my_id (p_globals p) < k ∧
            p_fds p = {[ (read_pipe k (my_id (p_globals p)), RD);
                         (my_id (p_globals p), WR) ]} ∧
            read_fd (p_globals p)
              = Some (read_pipe k (my_id (p_globals p)), RD) ∧
            write_fd (p_globals p) = Some (my_id (p_globals p), WR))
    as Hwired.
  { intros p [->|Hp]%elem_of_cons.
    - split; [simpl; lia|]. apply (wired_parent k pids). lia.
    - assert (∃ i ps, i ∈ seqZ 1 (k - 1) ∧ p = child_process k i ps)
        as (i & ps & Hi%elem_of_seqZ & ->).
      { clear -Hch Hp. induction Hch as [|i c ids ch [ps ->] _ IH].
        - by apply elem_of_nil in Hp.
        - apply elem_of_cons in Hp as [->|Hp].
          + exists i, ps. split; [left|done].
          + destruct (IH Hp) as (i' & ps' & ? & ?). exists i', ps'.
            split; [by right|done]. }
      split; [simpl; lia|]. apply (wired_child k i ps). lia. }
  split; [done|]. split; [done|]. split; [|split].
  - rewrite fmap_cons, Hids, (seqZ_cons 0) by lia.
    done.
  - intros p Hp i. destruct (Hwired p Hp) as (Hi & Hfds & Hr & Hw).
    assert (read_pipe k i ≠ i) as Hne.
    { subst i. rewrite read_pipe_eq by done. case_match; lia. }
    repeat split; try done.
    rewrite Hfds. rewrite size_union, !size_singleton; [done|].
    apply disjoint_singleton_l, not_elem_of_singleton. congruence.
  - intros j p Hj Hp. destruct (Hwired p Hp) as (Hi & Hfds & _ & _).
    rewrite Hfds, !elem_of_union, !elem_of_singleton, !pair_equal_spec.
    rewrite <- (read_pipe_succ k _ j) by done. split; split.
    + intros [[_ [=]] | [-> _]]. done.
    + intros <-. by right.
    + intros [[-> _] | [_ [=]]]. done.
    + intros <-. by left.
Qed.

Lemma ring_wiring_witness :
  ∃ t parent children,
    main_startup (mk_sysenv (λ _, true) (λ i, Some (Z.to_pos (100 + i))))
                 (lit "2" ++ [NL])
      = (t, RingCreated 2 parent children []) ∧
    omap pipe_of t = [0; 1] ∧
    (my_id ∘ p_globals) <$> (parent :: children) = [0; 1].
Proof.
  destruct (ring_wiring (mk_sysenv (λ _, true) (λ i, Some (Z.to_pos (100 + i))))
              (lit "2" ++ [NL]) [NL] 2)
    as (t & parent & children & H1 & H2 & H3 & _).
  - reflexivity.
  - unfold MAX_K. lia.
  - reflexivity.
  - intros i. by eexists.
  - by exists t, parent, children.
Defined.

(** ** Validation of the ring size *)

Example scanf_empty : scanf_d [] = ScanEOF.
Proof. reflexivity. Qed.

Example scanf_letters : scanf_d (lit "abc") = ScanMismatch.
Proof. reflexivity. Qed.

Example scanf_two : scanf_d (lit "2" ++ [NL]) = ScanInt 2 [NL].
Proof. reflexivity. Qed.

Example scanf_max : scanf_d (lit "64" ++ [NL]) = ScanInt 64 [NL].
Proof. reflexivity. Qed.

Example scanf_stops_at_the_dot : scanf_d (lit "2.5" ++ [NL]) = ScanInt 2 (lit ".5" ++ [NL]).
Proof. reflexivity. Qed.

Example scanf_wraps : scanf_d (lit "4294967298" ++ [NL]) = ScanInt 2 [NL].
Proof. reflexivity. Qed.

Example scanf_clamps_then_wraps :
  scanf_d (lit "99999999999999999999" ++ [NL]) = ScanInt (-1) [NL].
Proof. reflexivity. Qed.

Example startup_rejects_one env :
  main_startup env (lit "1" ++ [NL])
  = ([EvPrint LogBanner; EvPrint LogAskK; EvPrint LogInvalidK], InvalidK).
Proof. reflexivity. Qed.

Example startup_rejects_65 env :
  main_startup env (lit "65" ++ [NL])
  = ([EvPrint LogBanner; EvPrint LogAskK; EvPrint LogInvalidK], InvalidK).
Proof. reflexivity. Qed.

Lemma wrap_int_id v : INT_MIN ≤ v ≤ INT_MAX → wrap_int v = v.
Proof.
  unfold wrap_int, INT_MIN, INT_MAX. intros Hv.
  rewrite Z.mod_small; lia.
Qed.

Lemma wrap_int_range v : INT_MIN ≤ wrap_int v ≤ INT_MAX.
Proof.
  unfold wrap_int, INT_MIN, INT_MAX.
  pose proof (Z.mod_pos_bound (v + 2 ^ 31) (2 ^ 32) ltac:(lia)). lia.
Qed.

Lemma skip_space_stops s :
  match s with c :: _ => isspace c = false | [] => True end →
  skip_space s = s.
Proof. destruct s as [|c s]; [done|]. simpl. by intros ->. Qed.


Lemma scanf_d_unfold inp :
  scanf_d inp =
  if bool_decide (skip_space inp = []) then ScanEOF
  else
    let '(neg, s2) := scan_sign (skip_space inp) in
    let '(v, s3) := scan_digits 0 s2 in
    if (length s3 =? length s2)%nat then ScanMismatch
    else ScanInt (wrap_int (clamp_long (if neg then - v else v))) s3.
Proof. unfold scanf_d. by destruct (skip_space inp). Qed.

(** What [scanf_d] makes of an input split the way it reads it. *)
Lemma scanf_d_of_split inp ws sg ds tail :
  scanf_split inp ws sg ds tail →
  scanf_d inp =
  if bool_decide (ds = []) then
    if bool_decide (sg ++ tail = []) then ScanEOF else ScanMismatch
  else ScanInt (stored_int sg ds) tail.
Proof.
  intros (-> & Hws & Hsg & Hds & Htail & Hhead & Hplain).
  rewrite scanf_d_unfold. rewrite skip_space_app by done.
  rewrite skip_space_stops by done.
  assert (scan_digits 0 (ds ++ tail) = (decimal ds, tail)) as Hscan.
  { rewrite scan_digits_app by done. fold (decimal ds).
    destruct tail as [|c tail]; [done|]. simpl in *.
    unfold isdigit in Htail. by destruct (digit_of c). }
  assert (scan_sign (sg ++ ds ++ tail)
          = (bool_decide (sg = lit "-"), ds ++ tail)) as Hsign.
  { destruct Hsg as [-> | [-> | ->]]; [|done|done].
    simpl app in *. rewrite bool_decide_eq_false_2 by done.
    destruct ds as [|c ds].
    - destruct tail as [|c tail]; [done|]. simpl in *.
      destruct (Hplain eq_refl eq_refl) as [Hp Hm]. by rewrite Hm, Hp.
    - apply Forall_cons in Hds as [Hc _]. simpl.
      by rewrite isdigit_not_minus, isdigit_not_plus. }
  rewrite Hsign, Hscan. unfold stored_int.
  rewrite length_app.
  destruct (decide (ds = [])) as [->|Hd].
  - rewrite (bool_decide_eq_true_2 ([] = [])) by done.
    simpl. rewrite Nat.eqb_refl.
    by destruct (bool_decide (sg ++ tail = [])).
  - rewrite (bool_decide_eq_false_2 (ds = [])) by done.
    rewrite (bool_decide_eq_false_2 (sg ++ ds ++ tail = [])).
    + destruct (Nat.eqb_spec (length tail) (length ds + length tail)) as [He|He];
        [|done].
      destruct ds; [done|]. simpl in He. lia.
    + intros [_ [? _]%app_eq_nil]%app_eq_nil. done.
Qed.





(** ** Destination validation *)

Lemma parse_destination_ends_in_digit s k v :
  k ≤ INT_MAX → parse_destination s k = Some v →
  ∃ s' c, s = s' ++ [c] ∧ isdigit c = true.
Proof.
  intros Hk H. apply parse_destination_sound in H as [Hs _]; [|done].
  destruct Hs as (ws & sg & ds & -> & _ & _ & Hne & Hds).
  destruct (exists_last Hne) as (ds' & c & ->).
  exists (ws ++ sg ++ ds'), c. split; [by rewrite <- !app_assoc|].
  apply Forall_app in Hds as [_ Hc]. by inversion Hc.
Qed.

Example parse_3 : parse_destination (lit "3") 4 = Some 3.
Proof. reflexivity. Qed.
Example parse_sp3 : parse_destination (lit " 3") 4 = Some 3.
Proof. reflexivity. Qed.
Example parse_abc : parse_destination (lit "abc") 4 = None.
Proof. reflexivity. Qed.
Example parse_3x : parse_destination (lit "3x") 4 = None.
Proof. reflexivity. Qed.
Example parse_m0 : parse_destination (lit "-0") 4 = Some 0.
Proof. reflexivity. Qed.
Example parse_big : parse_destination (lit "99999999999999999999999") 4 = None.
Proof. reflexivity. Qed.

(** C10: [parse_destination] accepts exactly the strings made of optional
    white space, an optional sign and at least one digit, with nothing after
    the digits, whose value lies in [0,k).  So " 3", "+2" and "-0" are
    accepted; a string that ends in a character that is no digit is
    rejected, and so is one without any digit. *)
Theorem parse_destination_accepts_exactly (s : list ascii) (k : Z) :
  k ≤ INT_MAX →
  (∀ v, parse_destination s k = Some v ↔ dest_syntax s v ∧ 0 ≤ v < k) ∧
  (3 < k → parse_destination (lit " 3") k = Some 3) ∧
  (2 < k → parse_destination (lit "+2") k = Some 2) ∧
  (0 < k → parse_destination (lit "-0") k = Some 0) ∧
  (∀ c, isdigit c = false → parse_destination (s ++ [c]) k = None) ∧
  (∀ ws sg, Forall (λ c, isspace c = true) ws →
            sg = [] ∨ sg = lit "+" ∨ sg = lit "-" →
            parse_destination (ws ++ sg) k = None).
Proof.
  intros Hk. repeat apply conj.
  - intros v. split.
    + by apply parse_destination_sound.
    + intros [Hs Hv]. by apply parse_destination_complete.
  - intros H. apply parse_destination_complete; [|lia|done].
    exists (lit " "), [], (lit "3").
    repeat split; [repeat constructor|by left|done|repeat constructor].
  - intros H. apply parse_destination_complete; [|lia|done].
    exists [], (lit "+"), (lit "2").
    repeat split; [constructor|right; by left|done|repeat constructor].
  - intros H. apply parse_destination_complete; [|lia|done].
    exists [], (lit "-"), (lit "0").
    repeat split; [constructor|right; by right|done|repeat constructor].
  - intros c Hc. destruct (parse_destination (s ++ [c]) k) as [v|] eqn:E; [|done].
    apply parse_destination_ends_in_digit in E as (s' & c' & Heq & Hd); [|done].
    apply app_inj_tail in Heq as [_ ->]. congruence.
  - intros ws sg Hws Hsg.
    destruct (parse_destination (ws ++ sg) k) as [v|] eqn:E; [|done].
    apply parse_destination_ends_in_digit in E as (s' & c & Heq & Hd); [|done].
    assert (isdigit c = false ∨ ws ++ sg = []) as [Hnd|Hnil].
    { destruct Hsg as [-> | [-> | ->]].
      - rewrite app_nil_r in *. induction ws as [|c' ws' _] using rev_ind.
        + by right.
        + left. apply app_inj_tail in Heq as [_ ->].
          apply Forall_app in Hws as [_ Hc']. inversion Hc' as [|? ? Hsp _]; subst.
          destruct (isdigit c) eqn:Ed; [|done].
          apply isdigit_not_space in Ed. congruence.
      - left. apply app_inj_tail in Heq as [_ <-]. done.
      - left. apply app_inj_tail in Heq as [_ <-]. done. }
    + congruence.
    + rewrite Hnil in Heq. by destruct s'.
Qed.

Lemma parse_destination_accepts_exactly_witness :
  parse_destination (lit " 3") 4 = Some 3 ↔ dest_syntax (lit " 3") 3 ∧ 0 ≤ 3 < 4.
Proof.
  refine (proj1 (parse_destination_accepts_exactly (lit " 3") 4 _) 3).
  unfold INT_MAX. lia.
Defined.

(** ** The seed and the shape of the records in the ring *)

Lemma seed_is_empty :
  dest seed = DEST_EMPTY ∧ c_str (text seed) = [] ∧
  length (text seed) = MAX_TEXT.
Proof. repeat split. Qed.

(** Every record a node sends on has a [text] of [MAX_TEXT] bytes when the
    one it received had. *)
Lemma node_body_text_length id k a inp logs a' inp' :
  length (text a) = MAX_TEXT →
  node_body id k a inp = (logs, Send a', inp') →
  length (text a') = MAX_TEXT.
Proof.
  intros Hlen. unfold node_body.
  destruct (dest a =? DEST_EMPTY).
  - destruct (id =? 0); [|by intros [= _ <- _]].
    destruct (fgets 64 inp) as [[dl inp1]|]; [|by intros [= _ <- _]].
    destruct (_ || _); [done|].
    destruct (parse_destination _ _); [|by intros [= _ <- _]].
    destruct (ask_message inp1) as [t inp2]. intros [= _ <- _]. simpl.
    by apply injected_text_length.
  - destruct (dest a =? id); intros [= _ <- _]; simpl; [|done].
    by rewrite length_insert.
Qed.

(** A failed write of the seed takes the parent through the handler of
    SIGINT, not through its loop. *)
Lemma seed_write_failure g w wr s p ws :
  write_full (w_writes w) (stop_requested g) 0 sizeof_apple
    = Some (wr, s, p, ws) → wr < 0 →
  main_parent 0 g w =
  (EvPrint (LogPerror "write(seed)")
     :: (sigint_parent_handler g (w_waits w)).1,
   (sigint_parent_handler g (w_waits w)).2).
Proof.
  intros Hw Hneg. unfold main_parent. rewrite Hw.
  destruct (Z.ltb_spec wr 0); [|lia].
  rewrite handler_ignores_stop. by destruct (sigint_parent_handler _ _).
Qed.

(** Scenario A of the specification: in a ring of 3, node 0 sends "hi" to
    node 2; node 1 forwards, node 2 delivers and clears, and the token is
    back in front of node 0, empty. *)
Example scenario_A :
  let r := ring_run 3 3 (mk_ring 2 seed (lit "2" ++ NL :: lit "hi" ++ [NL])) in
  r.1 = [LogReturnedEmpty 0; LogAskDest 2; LogAskMessage;
         LogInjecting 0 2 (lit "hi"); LogForwarding 1 2;
         LogReceived 2 0 (lit "hi"); LogProcessed 2] ∧
  (λ s, (rs_pipe s, dest (rs_tok s), origin (rs_tok s),
         c_str (text (rs_tok s)), rs_stdin s)) <$> r.2
  = Some (2, DEST_EMPTY, 2, [], []).
Proof. vm_compute. done. Qed.

(** * Further properties of the code *)

(** ** chomp *)

(** [chomp] removes one newline at the end of the string and nothing else:
    a string that does not end in a newline is left alone, and of two
    newlines at the end the first one stays. *)
Theorem chomp_strips_one_newline (s : list ascii) :
  chomp (s ++ [NL]) = s ∧
  (last s ≠ Some NL → chomp s = s) ∧
  (length (chomp s) ≤ length s)%nat ∧
  (chomp s = s ∨ chomp s ++ [NL] = s).
Proof.
  split; [apply chomp_snoc_nl|].
  induction s as [|c s' _] using rev_ind.
  - by repeat split; try left.
  - rewrite last_snoc. unfold chomp. rewrite reverse_snoc. simpl.
    destruct (Ascii.eqb_spec c NL) as [->|Hne].
    + rewrite reverse_involutive. split; [done|]. split; [|by right].
      rewrite length_app. simpl. lia.
    + by repeat split; try left.
Qed.

Lemma chomp_strips_one_newline_witness : chomp (lit "ab") = lit "ab".
Proof.
  refine (proj1 (proj2 (chomp_strips_one_newline (lit "ab"))) _).
  discriminate.
Defined.

(** ** Stop requests *)

Lemma node_exit_quiet g : forallb is_quiet (node_exit g) = true.
Proof. unfold node_exit. by destruct (read_fd g), (write_fd g). Qed.

(** A read that is interrupted is started again, unless SIGUSR1 was what
    interrupted it: then the node, whichever it is, leaves its loop without
    taking the record or writing anything, closes its descriptors and exits
    with status 0; it signals and awaits no one. *)
Theorem stop_request_interrupts_the_read
    (f : nat) (g : globals) (w : world)
    (ms : list positive) (rs : list rd_result) :
  stop_requested g = false → bytes_read ms < sizeof_apple →
  (w_reads w = (RdBytes <$> ms) ++ RdEINTR true :: rs →
   node_loop (S f) g w = (node_exit g, Exited 0) ∧
   forallb is_quiet (node_exit g) = true) ∧
  (w_reads w = (RdBytes <$> ms) ++ RdEINTR false :: rs →
   node_loop (S f) g w =
   node_loop (S f) g
     (mk_world (w_stdin w) ((RdBytes <$> ms) ++ rs) (w_writes w)
        (w_inbox w) (w_waits w))).
Proof.
  intros Hs Hms. pose proof (bytes_read_nonneg ms) as Hnn. split; intros Hr.
  - split; [|apply node_exit_quiet].
    apply (node_loop_read_fails f g w (-1) true (bytes_read ms) rs); [done| |lia].
    rewrite Hr, read_full_partials by done. simpl.
    destruct (Z.leb_spec (sizeof_apple - bytes_read ms) 0); [lia|done].
  - simpl. rewrite Hs, Hr. rewrite !(read_full_partials ms) by done. simpl.
    destruct (Z.leb_spec (sizeof_apple - bytes_read ms) 0); [lia|done].
Qed.

Lemma stop_request_interrupts_the_read_witness :
  node_loop 1 (mk_globals [] 3 (Some (0, RD)) (Some (1, WR)) 1 false)
    (mk_world [] [RdBytes 1000; RdEINTR true; RdBytes 32] [] [seed] []) =
  ([EvPrint (LogExiting 1); EvClose (0, RD); EvClose (1, WR); EvExit 0],
   Exited 0).
Proof.
  refine (proj1 (proj1 (stop_request_interrupts_the_read 0
            (mk_globals [] 3 (Some (0, RD)) (Some (1, WR)) 1 false)
            (mk_world [] [RdBytes 1000; RdEINTR true; RdBytes 32] [] [seed] [])
            [1000%positive] [RdBytes 32] _ _) _));
    (reflexivity || (vm_compute; reflexivity)).
Defined.

(** A write is never given up because of a signal: when SIGUSR1 interrupts
    it the record is still written whole, and the node stops at the top of
    its loop before reading again. *)
Theorem stop_request_during_write_still_forwards
    (f : nat) (g : globals) (w : world) (a a' : apple_t)
    (inbox : list apple_t) (logs : list log) (inp1 : list ascii)
    (s : bool) (p : Z) (rs : list rd_result)
    (ns : list N) (n : N) (ws : list wr_result) :
  stop_requested g = false →
  read_full (w_reads w) false 0 sizeof_apple = Some (0, s, p, rs) →
  w_inbox w = a :: inbox →
  node_body (my_id g) (g_k g) a (w_stdin w) = (logs, Send a', inp1) →
  bytes_written ns < sizeof_apple ≤ bytes_written ns + Z.of_N n →
  w_writes w = (WrBytes <$> ns) ++ WrEINTR true :: WrBytes n :: ws →
  node_loop (S (S f)) g w =
  (EvRead (fd_or (read_fd g)) a :: (EvPrint <$> logs)
     ++ EvWrite (fd_or (write_fd g)) a' :: node_exit g, Exited 0).
Proof.
  intros Hs Hr Hin Hb Hns Hw.
  assert (write_full (w_writes w) s 0 sizeof_apple
          = Some (0, true, sizeof_apple, ws)) as Hwf.
  { rewrite Hw, write_full_partials by lia. simpl.
    destruct (Z.leb_spec (sizeof_apple - bytes_written ns) 0); [lia|].
    rewrite orb_true_r.
    rewrite Z.min_r by lia. rewrite write_full_done by lia.
    do 3 f_equal. lia. }
  rewrite (node_loop_send (S f) g w s p rs a inbox logs a' inp1 true _ ws
             Hs Hr Hin Hb Hwf).
  by rewrite node_loop_stopped.
Qed.

Lemma stop_request_during_write_still_forwards_witness :
  node_loop 2 (mk_globals [] 3 (Some (0, RD)) (Some (1, WR)) 1 false)
    (mk_world [] [RdBytes 1032] [WrBytes 32; WrEINTR true; WrBytes 1000]
       [mk_apple 2 0 (lit "x")] []) =
  ([EvRead (0, RD) (mk_apple 2 0 (lit "x")); EvPrint (LogForwarding 1 2);
    EvWrite (1, WR) (mk_apple 2 0 (lit "x"));
    EvPrint (LogExiting 1); EvClose (0, RD); EvClose (1, WR); EvExit 0],
   Exited 0).
Proof.
  refine (stop_request_during_write_still_forwards 0
            (mk_globals [] 3 (Some (0, RD)) (Some (1, WR)) 1 false)
            (mk_world [] [RdBytes 1032] [WrBytes 32; WrEINTR true; WrBytes 1000]
               [mk_apple 2 0 (lit "x")] [])
            (mk_apple 2 0 (lit "x")) (mk_apple 2 0 (lit "x")) []
            [LogForwarding 1 2] [] false 1032 []
            [32%N] 1000%N [] _ _ _ _ _ _);
    (reflexivity || (vm_compute; split; [reflexivity|discriminate])).
Defined.

(** ** Reads and writes of one node *)

Lemma count_reads_app t1 t2 :
  count_reads (t1 ++ t2) = (count_reads t1 + count_reads t2)%nat.
Proof. unfold count_reads. by rewrite filter_app, length_app. Qed.

Lemma count_writes_app t1 t2 :
  count_writes (t1 ++ t2) = (count_writes t1 + count_writes t2)%nat.
Proof. unfold count_writes. by rewrite filter_app, length_app. Qed.

Lemma count_prints logs :
  count_reads (EvPrint <$> logs) = 0%nat ∧
  count_writes (EvPrint <$> logs) = 0%nat.
Proof. induction logs as [|l logs [IH1 IH2]]; [done|]. split; [exact IH1|exact IH2]. Qed.

Lemma count_quiet t :
  forallb is_quiet t = true → count_reads t = 0%nat ∧ count_writes t = 0%nat.
Proof.
  induction t as [|e t IH]; [done|]. simpl. intros [He Ht]%andb_true_iff.
  destruct (IH Ht) as [IH1 IH2]. by destruct e.
Qed.

Lemma no_traffic_app t1 t2 :
  count_reads t1 = 0%nat ∧ count_writes t1 = 0%nat →
  count_reads t2 = 0%nat ∧ count_writes t2 = 0%nat →
  count_reads (t1 ++ t2) = 0%nat ∧ count_writes (t1 ++ t2) = 0%nat.
Proof. rewrite count_reads_app, count_writes_app. lia. Qed.

Lemma no_traffic_cons e t :
  is_read e = false → is_write e = false →
  count_reads t = 0%nat ∧ count_writes t = 0%nat →
  count_reads (e :: t) = 0%nat ∧ count_writes (e :: t) = 0%nat.
Proof.
  intros Hr Hw H. unfold count_reads, count_writes in *.
  rewrite !filter_cons. by rewrite Hr, Hw.
Qed.

Lemma wait_loop_no_traffic order children :
  count_reads (wait_loop order children).1 = 0%nat ∧
  count_writes (wait_loop order children).1 = 0%nat.
Proof.
  revert children. induction order as [|p order IH]; intros [|c ch]; try done.
  cbn [wait_loop]. destruct (bool_decide _); [|apply IH].
  specialize (IH (filter (λ x, x ≠ p) (c :: ch))).
  destruct (wait_loop order _) as [t b]. by apply no_traffic_cons.
Qed.

Lemma handler_no_pipe_traffic g order :
  count_reads (sigint_parent_handler g order).1 = 0%nat ∧
  count_writes (sigint_parent_handler g order).1 = 0%nat.
Proof.
  assert (∀ l : list Z, count_reads (EvKill <$> l) = 0%nat
                        ∧ count_writes (EvKill <$> l) = 0%nat) as Hk.
  { induction l as [|x l IH]; [done|]. rewrite fmap_cons.
    by apply no_traffic_cons. }
  assert (∀ fd, count_reads (close_fd fd) = 0%nat
                ∧ count_writes (close_fd fd) = 0%nat) as Hc
    by (by intros [fd|]).
  pose proof (wait_loop_no_traffic order (child_pids g)) as Hw.
  unfold sigint_parent_handler.
  destruct (wait_loop order (child_pids g)) as [t [|]]; cbn [fst] in *;
    (apply no_traffic_cons; [done|done|]);
    repeat first [exact Hw | apply Hk | apply Hc | apply no_traffic_app | done].
Qed.

(** A node writes only what it has read: along any run of [node_loop] the
    records written are never more than the records read, and at most one
    record read was not passed on, the one held when the node stopped. *)
Theorem node_loop_reads_before_it_writes
    (fuel : nat) (g : globals) (w : world) :
  (count_writes (node_loop fuel g w).1 ≤ count_reads (node_loop fuel g w).1)%nat
  ∧ (count_reads (node_loop fuel g w).1
     ≤ count_writes (node_loop fuel g w).1 + 1)%nat.
Proof.
  assert (∀ fd a t, count_reads (EvRead fd a :: t) = S (count_reads t)
                    ∧ count_writes (EvRead fd a :: t) = count_writes t)
    as Hrd by done.
  assert (∀ fd a t, count_reads (EvWrite fd a :: t) = count_reads t
                    ∧ count_writes (EvWrite fd a :: t) = S (count_writes t))
    as Hwr by done.
  assert (count_reads [] = 0%nat ∧ count_writes [] = 0%nat) as [Hn1 Hn2] by done.
  revert g w. induction fuel as [|fuel IH]; intros g w.
  { simpl. rewrite Hn1, Hn2. lia. }
  pose proof (count_quiet _ (node_exit_quiet g)) as [Hxr Hxw].
  simpl. destruct (stop_requested g). { simpl. rewrite Hxr, Hxw. lia. }
  destruct (read_full _ _ _ _) as [[[[r s1] p1] rs1]|];
    [|simpl; rewrite Hn1, Hn2; lia].
  destruct (r <? 0). { simpl. rewrite node_exit_set_stop, Hxr, Hxw. lia. }
  destruct (w_inbox w) as [|a inbox]; [simpl; rewrite Hn1, Hn2; lia|].
  destruct (node_body _ _ _ _) as [[logs res] inp1].
  destruct (count_prints logs) as [Hpr Hpw].
  destruct res as [a'|].
  - destruct (write_full _ _ _ _) as [[[[wr s2] p2] ws1]|].
    + destruct (wr <? 0).
      * cbn [fst]. rewrite node_exit_set_stop.
        destruct (Hrd (fd_or (read_fd g)) a ((EvPrint <$> logs) ++ node_exit g))
          as [-> ->].
        rewrite count_reads_app, count_writes_app, Hpr, Hpw, Hxr, Hxw. lia.
      * specialize (IH (set_stop s2 g) (mk_world inp1 rs1 ws1 inbox (w_waits w))).
        destruct (node_loop fuel _ _) as [t o]. cbn [fst] in *.
        destruct (Hrd (fd_or (read_fd g)) a
                    ((EvPrint <$> logs) ++ EvWrite (fd_or (write_fd g)) a' :: t))
          as [-> ->].
        rewrite count_reads_app, count_writes_app, Hpr, Hpw.
        destruct (Hwr (fd_or (write_fd g)) a' t) as [-> ->]. lia.
    + cbn [fst].
      destruct (Hrd (fd_or (read_fd g)) a (EvPrint <$> logs)) as [-> ->].
      rewrite Hpr, Hpw. lia.
  - pose proof (handler_no_pipe_traffic (set_stop s1 g) (w_waits w)) as [Hhr Hhw].
    destruct (sigint_parent_handler _ _) as [t o]. cbn [fst] in *.
    destruct (Hrd (fd_or (read_fd g)) a ((EvPrint <$> logs) ++ t)) as [-> ->].
    rewrite count_reads_app, count_writes_app, Hpr, Hpw, Hhr, Hhw. lia.
Qed.

(** ** Who reads the console, and what makes the Injector quit *)

(** Only node 0 holding an empty token touches the console: any other
    node, and node 0 with an addressed token, leaves the input where it is,
    always sends a record on, and sends the record it received unless that
    one was addressed to it. *)
Theorem console_is_read_only_to_inject
    (id k : Z) (a : apple_t) (inp : list ascii) :
  id ≠ 0 ∨ dest a ≠ DEST_EMPTY →
  ∃ logs a',
    node_body id k a inp = (logs, Send a', inp) ∧
    (dest a ≠ id → a' = a).
Proof.
  intros H. unfold node_body.
  destruct (Z.eqb_spec (dest a) DEST_EMPTY) as [He|He].
  - destruct H as [H|H]; [|done].
    destruct (Z.eqb_spec id 0); [done|]. by eexists _, _.
  - destruct (Z.eqb_spec (dest a) id); by eexists _, _.
Qed.

Lemma console_is_read_only_to_inject_witness :
  ∃ logs a',
    node_body 0 3 (mk_apple 2 0 (lit "hi")) (lit "q") = (logs, Send a', lit "q")
    ∧ (2 ≠ 0 → a' = mk_apple 2 0 (lit "hi")).
Proof.
  refine (console_is_read_only_to_inject 0 3 (mk_apple 2 0 (lit "hi")) (lit "q") _).
  right. discriminate.
Defined.

(** The loop body raises SIGINT in exactly one case: node 0 holds an empty
    token and the line read at the destination prompt is, without its
    newline, the one letter q or Q.  A line such as "quit", " q" or "q "
    is an invalid destination instead. *)
Theorem quit_exactly_on_q
    (id k : Z) (a : apple_t) (inp inp' : list ascii) (logs : list log) :
  node_body id k a inp = (logs, Quit, inp') ↔
  id = 0 ∧ dest a = DEST_EMPTY ∧
  logs = [LogReturnedEmpty 0; LogAskDest (k - 1)] ∧
  ∃ l, fgets 64 inp = Some (l, inp') ∧ (chomp l = lit "q" ∨ chomp l = lit "Q").
Proof.
  unfold node_body. split.
  - destruct (Z.eqb_spec (dest a) DEST_EMPTY) as [He|He].
    + destruct (Z.eqb_spec id 0) as [->|]; [|done].
      destruct (fgets 64 inp) as [[l inp1]|]; [|done].
      destruct (bool_decide (chomp l = lit "q")) eqn:Eq;
        [|destruct (bool_decide (chomp l = lit "Q")) eqn:EQ].
      * apply bool_decide_eq_true in Eq. simpl. intros [= <- <-].
        repeat split; try done. exists l. auto.
      * apply bool_decide_eq_true in EQ. simpl. intros [= <- <-].
        repeat split; try done. exists l. auto.
      * simpl. destruct (parse_destination _ _); [|done].
        by destruct (ask_message inp1).
    + by destruct (dest a =? id).
  - intros (-> & He & -> & l & Hget & Hq). rewrite He, Hget. simpl.
    destruct Hq as [-> | ->]; done.
Qed.

Lemma quit_exactly_on_q_witness :
  node_body 0 3 seed (lit "Q" ++ [NL])
  = ([LogReturnedEmpty 0; LogAskDest (3 - 1)], Quit, []).
Proof.
  refine (proj2 (quit_exactly_on_q 0 3 seed (lit "Q" ++ [NL]) [] _) _).
  repeat split. exists (lit "Q" ++ [NL]). split; [reflexivity|]. by right.
Defined.

Example quit_needs_the_bare_letter :
  ∀ a, dest a = DEST_EMPTY →
  node_body 0 3 a (lit "q " ++ [NL]) =
  ([LogReturnedEmpty 0; LogAskDest 2; LogInvalidDest (lit "q ")], Send a, []).
Proof.
  intros a He.
  by apply (node_body_invalid 3 a _ (lit "q " ++ [NL]) []).
Qed.

(** ** The ring over many steps *)

Lemma ring_run_app n m k s :
  ring_run (n + m) k s =
  match ring_run n k s with
  | (logs, Some s') =>
      let '(logs', r) := ring_run m k s' in (logs ++ logs', r)
  | (logs, None) => (logs, None)
  end.
Proof.
  revert s. induction n as [|n IH]; intros s; simpl.
  - by destruct (ring_run m k s).
  - destruct (ring_step k s) as [logs [s'|]]; [|done].
    rewrite IH. destruct (ring_run n k s') as [logs1 [s1|]]; [|done].
    destruct (ring_run m k s1). by rewrite app_assoc.
Qed.

Lemma ring_step_pipe k s logs s' :
  2 ≤ k → 0 ≤ rs_pipe s < k → ring_step k s = (logs, Some s') →
  rs_pipe s' = (rs_pipe s + 1) `mod` k.
Proof.
  intros Hk Hp. unfold ring_step. rewrite reader_of_succ by done.
  destruct (node_body _ _ _ _) as [[l [a'|]] i]; [|done].
  by intros [= _ <-].
Qed.

(** When the console is at its end the ring does not shut down: node 0
    sends the empty token on at every visit, without end. *)
Theorem console_eof_keeps_the_ring_turning
    (n : nat) (k j : Z) (a : apple_t) :
  2 ≤ k → 0 ≤ j < k → dest a = DEST_EMPTY →
  ∃ logs,
    ring_run n k (mk_ring j a []) =
    (logs, Some (mk_ring ((j + Z.of_nat n) `mod` k) a [])).
Proof.
  intros Hk. revert j. induction n as [|n IH]; intros j Hj He.
  - exists []. simpl. rewrite Z.add_0_r, Z.mod_small by done. done.
  - assert (0 ≤ (j + 1) `mod` k < k) as Hr by (apply Z.mod_pos_bound; lia).
    assert (ring_step k (mk_ring j a [])
            = ((node_body ((j + 1) `mod` k) k a []).1.1,
               Some (mk_ring ((j + 1) `mod` k) a []))) as Hstep.
    { unfold ring_step. simpl. rewrite reader_of_succ by done.
      destruct (Z.eq_dec ((j + 1) `mod` k) 0) as [->|Hne].
      - by rewrite node_body_dest_eof.
      - by rewrite node_body_relay_empty. }
    destruct (IH ((j + 1) `mod` k) Hr He) as [logs Hrun].
    eexists. simpl ring_run. rewrite Hstep, Hrun.
    do 3 f_equal. rewrite Zplus_mod_idemp_l. f_equal. lia.
Qed.

Lemma console_eof_keeps_the_ring_turning_witness :
  ∃ logs, ring_run 7 3 (mk_ring 2 seed []) = (logs, Some (mk_ring 0 seed [])).
Proof.
  refine (console_eof_keeps_the_ring_turning 7 3 2 seed _ _ _);
    (reflexivity || lia).
Defined.

(** ** Records stay well formed *)

Lemma injected_text_terminated (old t : list ascii) :
  length old = MAX_TEXT →
  NUL ∈ <[(MAX_TEXT - 1)%nat := NUL]> (strncpy old t (MAX_TEXT - 1)).
Proof.
  intros Hold. apply list_elem_of_lookup. exists (MAX_TEXT - 1)%nat.
  apply list_lookup_insert_eq. unfold strncpy.
  rewrite length_app, length_take, length_drop, length_app, length_replicate.
  unfold MAX_TEXT in *. lia.
Qed.

Lemma node_body_wf id k a inp logs a' inp' :
  k ≤ INT_MAX → 0 ≤ id < k → wf_apple k a →
  node_body id k a inp = (logs, Send a', inp') → wf_apple k a'.
Proof.
  intros Hk Hid (Hlen & Hnul & Hdest & Horig). unfold node_body.
  destruct (Z.eqb_spec (dest a) DEST_EMPTY) as [He|He].
  - destruct (Z.eqb_spec id 0) as [->|Hne].
    + destruct (fgets 64 inp) as [[dl inp1]|].
      * destruct (_ || _); [done|].
        destruct (parse_destination (chomp dl) k) as [d|] eqn:Ep.
        -- destruct (ask_message inp1) as [t inp2]. intros [= _ <- _].
           apply parse_destination_sound in Ep as [_ Hd]; [|done].
           unfold wf_apple. simpl.
           split; [by apply injected_text_length|].
           split; [by apply injected_text_terminated|].
           split; [by right|lia].
        -- by intros [= _ <- _].
      * intros [= _ <- _]. unfold wf_apple. simpl. auto.
    + by intros [= _ <- _].
  - destruct (Z.eqb_spec (dest a) id).
    + intros [= _ <- _]. unfold wf_apple. simpl.
      split; [by rewrite length_insert|]. split; [|split; [by left|lia]].
      apply list_elem_of_lookup. exists 0%nat.
      apply list_lookup_insert_eq. unfold MAX_TEXT in *. lia.
    + by intros [= _ <- _].
Qed.

Lemma ring_run_wf n k s logs s' :
  2 ≤ k ≤ MAX_K → 0 ≤ rs_pipe s < k → wf_apple k (rs_tok s) →
  ring_run n k s = (logs, Some s') →
  wf_apple k (rs_tok s') ∧
  rs_pipe s' = (rs_pipe s + Z.of_nat n) `mod` k.
Proof.
  intros Hk. revert s logs. induction n as [|n IH]; intros s logs Hp Hwf.
  - simpl. intros [= _ <-]. split; [done|].
    by rewrite Z.add_0_r, Z.mod_small.
  - simpl ring_run. destruct (ring_step k s) as [l1 [s1|]] eqn:Es; [|done].
    assert (0 ≤ (rs_pipe s + 1) `mod` k < k) as Hr
      by (apply Z.mod_pos_bound; lia).
    pose proof (ring_step_pipe k s l1 s1 ltac:(lia) Hp Es) as Hp1.
    assert (wf_apple k (rs_tok s1)) as Hwf1.
    { unfold ring_step in Es. rewrite reader_of_succ in Es by done.
      destruct (node_body _ _ _ _) as [[l [a'|]] i] eqn:Eb; [|done].
      injection Es as _ <-. simpl.
      eapply node_body_wf; [| |exact Hwf|exact Eb];
        [unfold MAX_K, INT_MAX in *; lia|done]. }
    destruct (ring_run n k s1) as [l2 r] eqn:Er. intros [= _ ->].
    destruct (IH s1 l2 ltac:(lia) Hwf1 Er) as [Hwf' Hp'].
    split; [done|]. rewrite Hp', Hp1, Zplus_mod_idemp_l. f_equal. lia.
Qed.

(** Whatever is typed, every record that circulates after the seed is a
    whole 1024-byte buffer that holds a terminator, with the sentinel or a
    node of the ring as destination and a node as origin; and after [n]
    transfers the token sits in pipe [n mod k]: it goes round in ring
    order. *)
Theorem ring_records_stay_well_formed
    (n : nat) (k : Z) (inp : list ascii) (logs : list log) (s : ring_state) :
  2 ≤ k ≤ MAX_K →
  ring_run n k (mk_ring 0 seed inp) = (logs, Some s) →
  wf_apple k (rs_tok s) ∧ rs_pipe s = Z.of_nat n `mod` k.
Proof.
  intros Hk Hrun.
  apply (ring_run_wf n k (mk_ring 0 seed inp) logs s Hk) in Hrun; [done| |].
  - simpl. lia.
  - unfold wf_apple. simpl. split; [done|]. split; [|split; [by left|lia]].
    apply list_elem_of_lookup. by exists 0%nat.
Qed.

Lemma ring_records_stay_well_formed_witness :
  wf_apple 3 seed ∧ 2 = Z.of_nat 2 `mod` 3.
Proof.
  refine (ring_records_stay_well_formed 2 3 (lit "1" ++ [NL])
            [LogEmptyForward 1; LogEmptyForward 2]
            (mk_ring 2 seed (lit "1" ++ [NL])) _ _).
  - unfold MAX_K. lia.
  - reflexivity.
Defined.

(** ** A whole cycle of the token *)

Lemma ring_run_forwards (m : nat) k j a inp :
  0 ≤ j → j + Z.of_nat m < k → dest a ≠ DEST_EMPTY →
  (∀ i, j < i ≤ j + Z.of_nat m → dest a ≠ i) →
  ring_run m k (mk_ring j a inp) =
  ((λ i, LogForwarding i (dest a)) <$> seqZ (j + 1) (Z.of_nat m),
   Some (mk_ring (j + Z.of_nat m) a inp)).
Proof.
  revert j. induction m as [|m IH]; intros j Hj Hk He Hd.
  - simpl. by rewrite Z.add_0_r.
  - simpl ring_run.
    assert ((j + 1) `mod` k = j + 1) as Hmod by (apply Z.mod_small; lia).
    rewrite ring_step_forward by (rewrite ?Hmod; (done || lia || (apply Hd; lia))).
    rewrite Hmod, IH by (done || lia || (intros i Hi; apply Hd; lia)).
    rewrite (seqZ_cons (j + 1)) by lia. simpl.
    do 3 f_equal; [f_equal; lia | lia].
Qed.

(** One message to a node other than the Injector costs exactly one turn of
    the ring: node 0 injects, nodes 1..d-1 forward, node [d] delivers and
    clears, nodes d+1..k-1 pass the empty token on, and after [k] transfers
    the token is in front of node 0 again, empty, with [d] as origin. *)
Theorem message_cycle_takes_one_turn
    (k d : Z) (a0 : apple_t) (inp dl inp1 : list ascii) :
  2 ≤ k ≤ MAX_K → dest a0 = DEST_EMPTY →
  fgets 64 inp = Some (dl, inp1) →
  parse_destination (chomp dl) k = Some d → d ≠ 0 →
  let txt := <[(MAX_TEXT - 1)%nat := NUL]>
               (strncpy (text a0) (ask_message inp1).1 (MAX_TEXT - 1)) in
  ring_run (Z.to_nat k) k (mk_ring (k - 1) a0 inp) =
  ([LogReturnedEmpty 0; LogAskDest (k - 1); LogAskMessage;
    LogInjecting 0 d (c_str txt)]
     ++ ((λ i, LogForwarding i d) <$> seqZ 1 (d - 1))
     ++ [LogReceived d 0 (c_str txt); LogProcessed d]
     ++ (LogEmptyForward <$> seqZ (d + 1) (k - 1 - d)),
   Some (mk_ring (k - 1) (mk_apple DEST_EMPTY d (<[0%nat := NUL]> txt))
           (ask_message inp1).2)).
Proof.
  intros Hk He Hget Hparse Hd0 txt.
  pose proof (node_body_inject k a0 inp dl inp1 d He Hget Hparse) as Hb.
  cbv zeta in Hb. fold txt in Hb.
  apply parse_destination_sound in Hparse as [_ Hd];
    [|unfold MAX_K, INT_MAX in *; lia].
  replace (Z.to_nat k)
    with (1 + (Z.to_nat (d - 1) + (1 + Z.to_nat (k - 1 - d))))%nat by lia.
  rewrite ring_run_app. simpl (ring_run 1 _ _).
  rewrite ring_step_injector, Hb by lia.
  rewrite ring_run_app.
  rewrite (ring_run_forwards _ k 0 (mk_apple d 0 txt)); simpl dest;
    [|lia|lia|unfold DEST_EMPTY; lia|intros i Hi; lia].
  rewrite Z2Nat.id by lia.
  rewrite ring_run_app. simpl (ring_run 1 _ _).
  rewrite ring_step_deliver; simpl dest; simpl origin; simpl text;
    [|lia|rewrite Z.mod_small; lia].
  rewrite ring_run_relays_empty by (done || lia).
  rewrite Z2Nat.id by lia.
  replace (d + (k - 1 - d)) with (k - 1) by lia. reflexivity.
Qed.

Lemma message_cycle_takes_one_turn_witness :
  (ring_run 3 3 (mk_ring 2 seed (lit "2" ++ NL :: lit "hi" ++ [NL]))).1
  = [LogReturnedEmpty 0; LogAskDest 2; LogAskMessage;
     LogInjecting 0 2 (lit "hi"); LogForwarding 1 2;
     LogReceived 2 0 (lit "hi"); LogProcessed 2].
Proof.
  refine (f_equal fst (message_cycle_takes_one_turn 3 2 seed
            (lit "2" ++ NL :: lit "hi" ++ [NL]) (lit "2" ++ [NL])
            (lit "hi" ++ [NL]) _ _ _ _ _));
    (reflexivity || discriminate || (unfold MAX_K; lia)).
Defined.

(** A message the Injector addresses to itself costs two turns: the
    addressed token goes round through every relay, node 0 delivers it to
    itself, and the empty token goes round once more before node 0 asks for
    the next destination. *)
Theorem self_addressed_cycle_takes_two_turns
    (k : Z) (a0 : apple_t) (inp dl inp1 : list ascii) :
  2 ≤ k ≤ MAX_K → dest a0 = DEST_EMPTY →
  fgets 64 inp = Some (dl, inp1) →
  parse_destination (chomp dl) k = Some 0 →
  let txt := <[(MAX_TEXT - 1)%nat := NUL]>
               (strncpy (text a0) (ask_message inp1).1 (MAX_TEXT - 1)) in
  ring_run (Z.to_nat (2 * k)) k (mk_ring (k - 1) a0 inp) =
  ([LogReturnedEmpty 0; LogAskDest (k - 1); LogAskMessage;
    LogInjecting 0 0 (c_str txt)]
     ++ ((λ i, LogForwarding i 0) <$> seqZ 1 (k - 1))
     ++ [LogReceived 0 0 (c_str txt); LogProcessed 0]
     ++ (LogEmptyForward <$> seqZ 1 (k - 1)),
   Some (mk_ring (k - 1) (mk_apple DEST_EMPTY 0 (<[0%nat := NUL]> txt))
           (ask_message inp1).2)).
Proof.
  intros Hk He Hget Hparse txt.
  pose proof (node_body_inject k a0 inp dl inp1 0 He Hget Hparse) as Hb.
  cbv zeta in Hb. fold txt in Hb.
  replace (Z.to_nat (2 * k))
    with (1 + (Z.to_nat (k - 1) + (1 + Z.to_nat (k - 1))))%nat by lia.
  rewrite ring_run_app. simpl (ring_run 1 _ _).
  rewrite ring_step_injector, Hb by lia.
  rewrite ring_run_app.
  rewrite (ring_run_forwards _ k 0 (mk_apple 0 0 txt)); simpl dest;
    [|lia|lia|unfold DEST_EMPTY; lia|intros i Hi; lia].
  rewrite Z2Nat.id by lia.
  rewrite ring_run_app. simpl (ring_run 1 _ _).
  replace (0 + (k - 1)) with (k - 1) by lia.
  rewrite ring_step_deliver; simpl dest; simpl origin; simpl text;
    [|lia|replace (k - 1 + 1) with k by lia; by rewrite Z.mod_same by lia].
  rewrite ring_run_relays_empty by (done || lia).
  rewrite Z2Nat.id by lia. reflexivity.
Qed.

Lemma self_addressed_cycle_takes_two_turns_witness :
  (ring_run 4 2 (mk_ring 1 seed (lit "0" ++ NL :: lit "me" ++ [NL]))).1
  = [LogReturnedEmpty 0; LogAskDest 1; LogAskMessage;
     LogInjecting 0 0 (lit "me"); LogForwarding 1 0;
     LogReceived 0 0 (lit "me"); LogProcessed 0; LogEmptyForward 1].
Proof.
  refine (f_equal fst (self_addressed_cycle_takes_two_turns 2 seed
            (lit "0" ++ NL :: lit "me" ++ [NL]) (lit "0" ++ [NL])
            (lit "me" ++ [NL]) _ _ _ _));
    (reflexivity || (unfold MAX_K; lia)).
Defined.

(** ** Startup: failures of pipe and fork, and what is recorded *)

Lemma pipe_loop_app env l1 l2 :
  (∀ j, j ∈ l1 → pipe_ok env j = true) →
  pipe_loop env (l1 ++ l2) =
  ((EvPipe <$> l1) ++ (pipe_loop env l2).1, (pipe_loop env l2).2).
Proof.
  induction l1 as [|j l1 IH]; intros Hok; simpl.
  - by destruct (pipe_loop env l2).
  - rewrite (Hok j) by left. rewrite IH by (intros; apply Hok; by right).
    done.
Qed.

Lemma seqZ_split a n m :
  0 ≤ m < n → seqZ a n = seqZ a m ++ (a + m) :: seqZ (a + m + 1) (n - m - 1).
Proof.
  intros Hm. replace n with (m + (n - m)) at 1 by lia.
  rewrite seqZ_app by lia. f_equal.
  rewrite (seqZ_cons (a + m)) by lia. f_equal; lia.
Qed.

(** When [pipe] fails for [pipes[j]], [main] has made the pipes before it,
    forks nothing, reports the error and returns 1. *)
Theorem pipe_failure_aborts_startup
    (env : sysenv) (inp rest : list ascii) (k j : Z) :
  scanf_d inp = ScanInt k rest → 2 ≤ k ≤ MAX_K → 0 ≤ j < k →
  (∀ j', 0 ≤ j' < j → pipe_ok env j' = true) → pipe_ok env j = false →
  main_startup env inp =
  ([EvPrint LogBanner; EvPrint LogAskK] ++ (EvPipe <$> seqZ 0 j)
     ++ [EvPrint (LogPerror "pipe")], PipeFailed j) ∧
  exit_status (PipeFailed j) = Some 1.
Proof.
  intros Hscan Hk Hj Hok Hfail. split; [|done].
  unfold main_startup. rewrite Hscan.
  destruct (Z.ltb_spec k 2); [lia|]. destruct (Z.ltb_spec MAX_K k); [lia|].
  simpl orb. cbv iota.
  rewrite (seqZ_split 0 k j) by done.
  rewrite pipe_loop_app by (intros j' Hj'%elem_of_seqZ; apply Hok; lia).
  change (0 + j) with j. cbn [pipe_loop]. rewrite Hfail. done.
Qed.

Lemma pipe_failure_aborts_startup_witness :
  main_startup (mk_sysenv (λ j, j <? 1) (λ _, Some 7%positive))
    (lit "3" ++ [NL]) =
  ([EvPrint LogBanner; EvPrint LogAskK; EvPipe 0;
    EvPrint (LogPerror "pipe")], PipeFailed 1).
Proof.
  refine (proj1 (pipe_failure_aborts_startup
            (mk_sysenv (λ j, j <? 1) (λ _, Some 7%positive))
            (lit "3" ++ [NL]) [NL] 3 1 _ _ _ _ _));
    try reflexivity; try (unfold MAX_K; lia).
  intros j' Hj'. simpl. lia.
Defined.

(** The fork loop over the nodes [a .. a+n-1] when every fork succeeds:
    child [i] starts with the pids recorded before it, and the parent
    records each pid in turn. *)
Lemma fork_loop_all env k (pid : Z → positive) (n : nat) a pids :
  (∀ i, a ≤ i < a + Z.of_nat n → fork_pid env i = Some (pid i)) →
  fork_loop env k (seqZ a (Z.of_nat n)) pids =
  ((λ i, EvFork i (Z.pos (pid i))) <$> seqZ a (Z.of_nat n),
   (λ i, child_process k i
           (pids ++ ((λ i', Z.pos (pid i')) <$> seqZ a (i - a))))
     <$> seqZ a (Z.of_nat n),
   pids ++ ((λ i, Z.pos (pid i)) <$> seqZ a (Z.of_nat n)),
   None).
Proof.
  revert a pids. induction n as [|n IH]; intros a pids Hpid.
  - simpl. by rewrite app_nil_r.
  - rewrite (seqZ_cons a) by lia. cbn [fork_loop]. rewrite Hpid by lia.
    replace (Z.pred (Z.of_nat (S n))) with (Z.of_nat n) by lia.
    rewrite IH by (intros; apply Hpid; lia). rewrite !fmap_cons. f_equal. f_equal; [f_equal|].
    + f_equal.
      * rewrite Z.sub_diag. simpl. by rewrite app_nil_r.
      * apply list_fmap_ext. intros j i Hi%list_elem_of_lookup_2%elem_of_seqZ.
        f_equal. rewrite <- app_assoc. f_equal.
        rewrite (seqZ_cons a) by lia. rewrite fmap_cons.
        replace (Z.pred (i - a)) with (i - Z.succ a) by lia. done.
    + by rewrite <- app_assoc.
Qed.

Lemma fork_loop_app env k l1 l2 pids t1 ch1 pids1 :
  fork_loop env k l1 pids = (t1, ch1, pids1, None) →
  fork_loop env k (l1 ++ l2) pids =
  (t1 ++ (fork_loop env k l2 pids1).1.1.1,
   ch1 ++ (fork_loop env k l2 pids1).1.1.2,
   (fork_loop env k l2 pids1).1.2, (fork_loop env k l2 pids1).2).
Proof.
  revert pids t1 ch1. induction l1 as [|i l1 IH]; intros pids t1 ch1; simpl.
  - intros [= <- <- <-]. by destruct (fork_loop env k l2 pids) as [[[??]?]?].
  - destruct (fork_pid env i) as [p|]; [|done].
    destruct (fork_loop env k l1 _) as [[[t c] ps] [f|]] eqn:E; [done|].
    intros [= <- <- <-]. by rewrite (IH _ _ _ E).
Qed.

(** With every system call succeeding, [main] makes the [k] pipes, then
    forks the nodes 1..k-1 in this order, and the parent ends up with their
    pids in [child_pids], [k - 1] of them, so that the array of [MAX_K]
    entries is never overrun; child [i] starts with the pids of the children
    forked before it. *)
Theorem startup_records_every_child
    (env : sysenv) (pid : Z → positive) (inp rest : list ascii) (k : Z) :
  scanf_d inp = ScanInt k rest → 2 ≤ k ≤ MAX_K →
  (∀ j, pipe_ok env j = true) → (∀ i, fork_pid env i = Some (pid i)) →
  let pids_upto := λ i, (λ i', Z.pos (pid i')) <$> seqZ 1 (i - 1) in
  main_startup env inp =
  ([EvPrint LogBanner; EvPrint LogAskK] ++ (EvPipe <$> seqZ 0 k)
     ++ ((λ i, EvFork i (Z.pos (pid i))) <$> seqZ 1 (k - 1))
     ++ [EvPrint (LogRingCreated k)],
   RingCreated k (parent_process k (pids_upto k))
     ((λ i, child_process k i (pids_upto i)) <$> seqZ 1 (k - 1))
     (discard_line rest)) ∧
  (length (pids_upto k) = Z.to_nat (k - 1)) ∧
  (Z.of_nat (length (pids_upto k)) < MAX_K).
Proof.
  intros Hscan Hk Hpipe Hfork pids_upto. split.
  - unfold main_startup. rewrite Hscan.
    destruct (Z.ltb_spec k 2); [lia|]. destruct (Z.ltb_spec MAX_K k); [lia|].
    simpl orb. cbv iota. rewrite pipe_loop_ok by done.
    replace (k - 1) with (Z.of_nat (Z.to_nat (k - 1))) at 1 by lia.
    rewrite (fork_loop_all env k pid) by (intros; apply Hfork).
    rewrite Z2Nat.id by lia. done.
  - unfold pids_upto. rewrite length_fmap, length_seqZ. lia.
Qed.

Lemma startup_records_every_child_witness :
  (main_startup (mk_sysenv (λ _, true) (λ i, Some (Z.to_pos (100 + i))))
     (lit "3" ++ [NL])).1 =
  [EvPrint LogBanner; EvPrint LogAskK; EvPipe 0; EvPipe 1; EvPipe 2;
   EvFork 1 101; EvFork 2 102; EvPrint (LogRingCreated 3)].
Proof.
  refine (f_equal fst (proj1 (startup_records_every_child
            (mk_sysenv (λ _, true) (λ i, Some (Z.to_pos (100 + i))))
            (λ i, Z.to_pos (100 + i)) (lit "3" ++ [NL]) [NL] 3 _ _ _ _)));
    try reflexivity. unfold MAX_K; lia.
Defined.

(** When the fork of node [i] fails, [main] reports it and returns 1 at
    once: the children forked before are neither signalled nor awaited. *)
Theorem fork_failure_aborts_startup
    (env : sysenv) (pid : Z → positive) (inp rest : list ascii) (k i : Z) :
  scanf_d inp = ScanInt k rest → 2 ≤ k ≤ MAX_K →
  (∀ j, pipe_ok env j = true) → 1 ≤ i < k →
  (∀ i', 1 ≤ i' < i → fork_pid env i' = Some (pid i')) →
  fork_pid env i = None →
  let left_running :=
    (λ i', child_process k i' ((λ j, Z.pos (pid j)) <$> seqZ 1 (i' - 1)))
      <$> seqZ 1 (i - 1) in
  main_startup env inp =
  ([EvPrint LogBanner; EvPrint LogAskK] ++ (EvPipe <$> seqZ 0 k)
     ++ ((λ i', EvFork i' (Z.pos (pid i'))) <$> seqZ 1 (i - 1))
     ++ [EvPrint (LogPerror "fork")],
   ForkFailed i left_running) ∧
  exit_status (ForkFailed i left_running) = Some 1.
Proof.
  intros Hscan Hk Hpipe Hi Hok Hfail left_running. split; [|done].
  unfold main_startup. rewrite Hscan.
  destruct (Z.ltb_spec k 2); [lia|]. destruct (Z.ltb_spec MAX_K k); [lia|].
  simpl orb. cbv iota. rewrite pipe_loop_ok by done.
  rewrite (seqZ_split 1 (k - 1) (i - 1)) by lia.
  replace (1 + (i - 1)) with i by lia.
  erewrite fork_loop_app; cycle 1.
  { replace (i - 1) with (Z.of_nat (Z.to_nat (i - 1))) by lia.
    apply (fork_loop_all env k pid). intros i' Hi'. apply Hok. lia. }
  cbn [fork_loop]. rewrite Hfail. cbn [fst snd].
  rewrite !Z2Nat.id by lia. by rewrite !app_nil_r.
Qed.

Lemma fork_failure_aborts_startup_witness :
  (main_startup (mk_sysenv (λ _, true)
                   (λ i, if i <? 2 then Some 101%positive else None))
     (lit "3" ++ [NL])).1 =
  [EvPrint LogBanner; EvPrint LogAskK; EvPipe 0; EvPipe 1; EvPipe 2;
   EvFork 1 101; EvPrint (LogPerror "fork")].
Proof.
  refine (f_equal fst (proj1 (fork_failure_aborts_startup
            (mk_sysenv (λ _, true)
               (λ i, if i <? 2 then Some 101%positive else None))
            (λ _, 101%positive) (lit "3" ++ [NL]) [NL] 3 2 _ _ _ _ _ _)));
    try reflexivity; try (unfold MAX_K; lia).
  intros i' Hi'. simpl. destruct (Z.ltb_spec i' 2); [done|lia].
Defined.

(** ** The seed, and how the parent ends *)

(** When the write of the seed returns an error the parent never enters
    its loop: it reports the error and goes through the handler of SIGINT,
    which signals every child, closes the two descriptors, reaps the
    children and exits, with status 0 although the ring never ran.  When
    instead pipe 0 has lost its reader, the write raises SIGPIPE and the
    parent is killed inside it: nothing is reported, no child is signalled
    or awaited. *)
Theorem failed_seed_write_shuts_down
    (fuel : nat) (g : globals) (w : world)
    (ns : list N) (ws : list wr_result) (rfd wfd : endpoint) :
  read_fd g = Some rfd → write_fd g = Some wfd →
  Forall (λ p, 0 < p) (child_pids g) →
  bytes_written ns < sizeof_apple →
  (w_writes w = (WrBytes <$> ns) ++ WrError :: ws →
   (∀ c, c ∈ child_pids g → c ∈ w_waits w) →
   ∃ reaped,
     main_parent fuel g w =
     (EvPrint (LogPerror "write(seed)") :: EvPrint LogCtrlC
        :: (EvKill <$> child_pids g) ++ [EvClose rfd; EvClose wfd]
        ++ (EvWait <$> reaped) ++ [EvExit 0], Exited 0) ∧
     (∀ p, p ∈ reaped ↔ p ∈ child_pids g)) ∧
  (w_writes w = (WrBytes <$> ns) ++ WrSigpipe :: ws →
   main_parent fuel g w = ([], Killed SIGPIPE)).
Proof.
  intros Hr Hw Hpos Hns. pose proof (bytes_written_nonneg ns) as Hnn.
  split.
  - intros Hwr Hall.
    destruct (wait_loop_reaps (w_waits w) _ Hall) as (reaped & Hwl & Hset & _).
    exists reaped. split; [|done].
    unfold main_parent. rewrite Hwr, write_full_error by done. simpl.
    unfold sigint_parent_handler. simpl.
    by rewrite Hwl, Hr, Hw, filter_all_pos.
  - intros Hwr. unfold main_parent, write_stuck.
    rewrite Hwr, write_full_partials, write_killed_partials by done. simpl.
    destruct (Z.leb_spec (sizeof_apple - bytes_written ns) 0); [lia|done].
Qed.

Lemma failed_seed_write_shuts_down_witness :
  main_parent 5
    (mk_globals [101; 102] 3 (Some (2, RD)) (Some (0, WR)) 0 false)
    (mk_world [] [] [WrSigpipe] [] [102; 101])
  = ([], Killed SIGPIPE).
Proof.
  refine (proj2 (failed_seed_write_shuts_down 5
            (mk_globals [101; 102] 3 (Some (2, RD)) (Some (0, WR)) 0 false)
            (mk_world [] [] [WrSigpipe] [] [102; 101])
            [] [] (2, RD) (0, WR) _ _ _ _) _).
  - reflexivity.
  - reflexivity.
  - simpl. repeat constructor.
  - reflexivity.
  - reflexivity.
Defined.

Lemma write_stuck_cases ws :
  write_stuck ws = Killed SIGPIPE ∨ write_stuck ws = Blocked.
Proof. unfold write_stuck. destruct (write_killed _ _); auto. Qed.

Lemma handler_outcome g order :
  (sigint_parent_handler g order).2 = Exited 0 ∨
  (sigint_parent_handler g order).2 = Blocked.
Proof.
  unfold sigint_parent_handler.
  destruct (wait_loop order (child_pids g)) as [t [|]]; simpl; auto.
Qed.

Lemma node_loop_outcome fuel g w :
  (node_loop fuel g w).2 = Exited 0 ∨ (node_loop fuel g w).2 = Killed SIGPIPE ∨
  (node_loop fuel g w).2 = Blocked ∨ (node_loop fuel g w).2 = Running.
Proof.
  revert g w. induction fuel as [|fuel IH]; intros g w; [simpl; auto|]. simpl.
  destruct (stop_requested g); [simpl; auto|].
  destruct (read_full _ _ _ _) as [[[[r s1] p1] rs1]|]; [|simpl; auto].
  destruct (r <? 0); [simpl; auto|].
  destruct (w_inbox w) as [|a inbox]; [simpl; auto|].
  destruct (node_body _ _ _ _) as [[logs [a'|]] inp1].
  - destruct (write_full _ _ _ _) as [[[[wr s2] p2] ws1]|].
    + destruct (wr <? 0); [simpl; auto|].
      specialize (IH (set_stop s2 g) (mk_world inp1 rs1 ws1 inbox (w_waits w))).
      by destruct (node_loop fuel _ _).
    + simpl. destruct (write_stuck_cases (w_writes w)) as [-> | ->]; auto.
  - pose proof (handler_outcome (set_stop s1 g) (w_waits w)) as Hh.
    destruct (sigint_parent_handler _ _). simpl in *.
    destruct Hh as [-> | ->]; auto.
Qed.

Lemma main_parent_outcome fuel g w :
  (main_parent fuel g w).2 = Exited 0 ∨
  (main_parent fuel g w).2 = Killed SIGPIPE ∨
  (main_parent fuel g w).2 = Blocked ∨ (main_parent fuel g w).2 = Running.
Proof.
  unfold main_parent.
  destruct (write_full _ _ _ _) as [[[[wr s] p] ws]|].
  - destruct (wr <? 0).
    + pose proof (handler_outcome (set_stop s g) (w_waits w)) as Hh.
      destruct (sigint_parent_handler _ _). simpl in *.
      destruct Hh as [-> | ->]; auto.
    + pose proof (node_loop_outcome fuel (set_stop s g)
                    (mk_world (w_stdin w) (w_reads w) ws (w_inbox w) (w_waits w)))
        as Hn.
      by destruct (node_loop fuel _ _).
  - simpl. destruct (write_stuck_cases (w_writes w)) as [-> | ->]; auto.
Qed.

Lemma main_startup_no_traffic env inp :
  count_reads (main_startup env inp).1 = 0%nat ∧
  count_writes (main_startup env inp).1 = 0%nat.
Proof.
  unfold main_startup.
  assert (∀ js, count_reads (pipe_loop env js).1 = 0%nat
                ∧ count_writes (pipe_loop env js).1 = 0%nat) as Hp.
  { induction js as [|j js IH]; [done|]. simpl.
    destruct (pipe_ok env j); [|done].
    destruct (pipe_loop env js) as [tp f]. by apply no_traffic_cons. }
  assert (∀ k ids pids, count_reads (fork_loop env k ids pids).1.1.1 = 0%nat
                ∧ count_writes (fork_loop env k ids pids).1.1.1 = 0%nat) as Hf.
  { intros k ids. induction ids as [|i ids IH]; intros pids; [done|]. simpl.
    destruct (fork_pid env i) as [p|]; [|done].
    specialize (IH (pids ++ [Z.pos p])).
    destruct (fork_loop env k ids _) as [[[tf ch] ps] f].
    by apply no_traffic_cons. }
  destruct (scanf_d inp) as [| |k rest]; try done.
  destruct (_ || _); [done|].
  specialize (Hp (seqZ 0 k)). specialize (Hf k (seqZ 1 (k - 1)) []).
  destruct (pipe_loop env _) as [t1 [j|]]; simpl in *.
  - by apply (no_traffic_cons (EvPrint LogBanner)), (no_traffic_cons (EvPrint LogAskK)).
  - destruct (fork_loop env k _ _) as [[[t2 ch] pids] [i|]]; simpl in *;
      apply (no_traffic_cons (EvPrint LogBanner)); try done;
      apply (no_traffic_cons (EvPrint LogAskK)); try done;
      repeat first [exact Hp | exact Hf | apply no_traffic_app | done].
Qed.

(** The parent ends with status 1 exactly when the start failed (bad ring
    size, or a pipe or fork that failed), and then nothing was read from or
    written to a pipe.  Once the ring is wired the parent never exits with
    another status than 0: it exits with 0 (quit directive, interrupt, stop
    request, a read that fails or a write that returns an error), or it is
    killed by SIGPIPE in a write to a pipe without reader, or it is still
    in its loop or waiting in a system call. *)
Theorem exit_status_tells_startup_failure
    (fuel : nat) (env : sysenv) (w : world) :
  (exit_status (main_startup env (w_stdin w)).2 = Some 1 ∧
   (main fuel env w).2 = Exited 1 ∧
   count_reads (main fuel env w).1 = 0%nat ∧
   count_writes (main fuel env w).1 = 0%nat) ∨
  ((∃ k parent children inp,
      (main_startup env (w_stdin w)).2 = RingCreated k parent children inp) ∧
   ((main fuel env w).2 = Exited 0 ∨ (main fuel env w).2 = Killed SIGPIPE ∨
    (main fuel env w).2 = Blocked ∨ (main fuel env w).2 = Running)).
Proof.
  unfold main.
  pose proof (main_startup_no_traffic env (w_stdin w)) as Hquiet.
  destruct (main_startup env (w_stdin w)) as [t0 s] eqn:Es. simpl in *.
  destruct s as [|j|i ch|k parent ch inp];
    try (left; repeat split; try done; by apply no_traffic_app).
  right. split; [by eexists _, _, _, _|].
  pose proof (main_parent_outcome fuel (p_globals parent)
                (mk_world inp (w_reads w) (w_writes w) (w_inbox w) (w_waits w)))
    as Ho.
  by destruct (main_parent fuel _ _).
Qed.

(** ** What is typed after the ring size *)

Lemma discard_line_app (junk rest : list ascii) :
  NL ∉ junk → discard_line (junk ++ NL :: rest) = rest.
Proof.
  induction junk as [|c junk IH]; intros Hnl; simpl; [done|].
  apply not_elem_of_cons in Hnl as [Hc Hj].
  destruct (Ascii.eqb_spec c NL); [done|]. by apply IH.
Qed.

Lemma scanf_d_prefix (ws ds tail : list ascii) :
  Forall (λ c, isspace c = true) ws →
  ds ≠ [] → Forall (λ c, isdigit c = true) ds →
  match tail with c :: _ => isdigit c = false | [] => True end →
  decimal ds ≤ INT_MAX →
  scanf_d (ws ++ ds ++ tail) = ScanInt (decimal ds) tail.
Proof.
  intros Hws Hne Hds Htail Hmax.
  rewrite (scanf_d_of_split _ ws [] ds tail).
  - rewrite bool_decide_eq_false_2 by done. f_equal.
    unfold stored_int. rewrite bool_decide_eq_false_2 by done.
    pose proof (decimal_nonneg ds Hds) as Hnn.
    rewrite clamp_long_id by (unfold INT_MAX, LONG_MIN, LONG_MAX in *; lia).
    apply wrap_int_id. unfold INT_MIN. lia.
  - unfold scanf_split. split; [done|]. split; [done|]. split; [by left|].
    split; [done|]. split; [by destruct tail|]. split; [|done].
    destruct ds as [|c ds]; [done|]. simpl.
    apply Forall_cons in Hds as [Hc _]. by apply isdigit_not_space.
Qed.

(** [scanf("%d")] stops at the first character that is no digit and the
    rest of that line is thrown away: a line such as "12abc" starts a ring
    of 12 nodes, and the first destination prompt reads the line after it. *)
Theorem text_after_the_ring_size_is_dropped
    (env : sysenv) (ws ds junk rest : list ascii) :
  Forall (λ c, isspace c = true) ws →
  ds ≠ [] → Forall (λ c, isdigit c = true) ds →
  match junk with c :: _ => isdigit c = false | [] => True end →
  NL ∉ junk → 2 ≤ decimal ds ≤ MAX_K →
  (∀ j, pipe_ok env j = true) → (∀ i, is_Some (fork_pid env i)) →
  ∃ t parent children,
    main_startup env (ws ++ ds ++ junk ++ NL :: rest)
    = (t, RingCreated (decimal ds) parent children rest).
Proof.
  intros Hws Hne Hds Hjunk Hnl Hk Hpipe Hfork.
  assert (scanf_d (ws ++ ds ++ junk ++ NL :: rest)
          = ScanInt (decimal ds) (junk ++ NL :: rest)) as Hscan.
  { apply scanf_d_prefix; try done.
    - destruct junk; [reflexivity|done].
    - unfold MAX_K, INT_MAX in *. lia. }
  destruct (main_startup_ok env _ _ _ Hscan Hk Hpipe Hfork)
    as (t & pids & ch & Hmain & _).
  rewrite discard_line_app in Hmain by done. by eexists _, _, _.
Qed.

Lemma text_after_the_ring_size_is_dropped_witness :
  ∃ t parent children,
    main_startup (mk_sysenv (λ _, true) (λ _, Some 9%positive))
      (lit "12abc" ++ NL :: lit "3" ++ [NL])
    = (t, RingCreated 12 parent children (lit "3" ++ [NL])).
Proof.
  refine (text_after_the_ring_size_is_dropped
            (mk_sysenv (λ _, true) (λ _, Some 9%positive))
            [] (lit "12") (lit "abc") (lit "3" ++ [NL]) _ _ _ _ _ _ _ _).
  - constructor.
  - discriminate.
  - repeat constructor.
  - reflexivity.
  - intros H. repeat (apply elem_of_cons in H as [H|H]; [discriminate H|]).
    by apply elem_of_nil in H.
  - vm_compute. split; discriminate.
  - reflexivity.
  - intros i. by eexists.
Defined.

(** ** Lines that do not fit, and NUL characters *)

(** A destination line of 63 characters or more is cut: its first 63
    characters are the destination, and what follows them on the line is
    read as the message. *)
Theorem long_destination_line_spills_into_message
    (k d : Z) (a : apple_t) (line rest : list ascii) :
  dest a = DEST_EMPTY → NUL ∉ line → NL ∉ line →
  (63 ≤ length line)%nat →
  parse_destination (take 63 line) k = Some d →
  ∃ logs txt inp',
    node_body 0 k a (line ++ NL :: rest) = (logs, Send (mk_apple d 0 txt), inp')
    ∧ c_str txt = take (MAX_TEXT - 1) (drop 63 line).
Proof.
  intros He Hnul Hnl Hlen Hparse.
  assert ((NUL ∉ take 63 line) ∧ (NL ∉ take 63 line)) as [Hnul1 Hnl1]
    by (split; intros H; [apply Hnul|apply Hnl]; by eapply elem_of_take_from).
  assert ((NUL ∉ drop 63 line) ∧ (NL ∉ drop 63 line)) as [Hnul2 Hnl2].
  { split; intros H; [apply Hnul|apply Hnl];
      rewrite <- (take_drop 63 line); apply elem_of_app; by right. }
  assert (fgets 64 (line ++ NL :: rest)
          = Some (take 63 line, drop 63 line ++ NL :: rest)) as Hget.
  { unfold fgets. destruct line as [|c line]; [simpl in Hlen; lia|].
    change ((c :: line) ++ NL :: rest) with ((c :: line) ++ (NL :: rest)).
    change (64 - 1)%nat with 63%nat.
    destruct ((c :: line) ++ NL :: rest) eqn:E; [done|]. rewrite <- E.
    rewrite read_line_long by done. by rewrite c_str_no_nul. }
  rewrite <- (chomp_no_nl (take 63 line)) in Hparse by done.
  pose proof (node_body_inject k a _ _ _ d He Hget Hparse) as Hb.
  cbv zeta in Hb.
  rewrite ask_message_line in Hb by (done || (right; by eexists)).
  eexists _, _, _. split; [exact Hb|].
  apply injected_text.
  - intros H. apply Hnul2. by eapply elem_of_take_from.
  - rewrite length_take. lia.
Qed.

Lemma long_destination_line_spills_into_message_witness :
  ∃ logs txt inp',
    node_body 0 3 seed ((replicate 62 " "%char ++ lit "1hi") ++ NL :: [])
    = (logs, Send (mk_apple 1 0 txt), inp')
    ∧ c_str txt = lit "hi".
Proof.
  refine (long_destination_line_spills_into_message 3 1 seed
            (replicate 62 " "%char ++ lit "1hi") [] _ _ _ _ _).
  - reflexivity.
  - intros H. apply elem_of_app in H as [H%elem_of_replicate|H].
    + by destruct H.
    + repeat (apply elem_of_cons in H as [H|H]; [discriminate H|]).
      by apply elem_of_nil in H.
  - intros H. apply elem_of_app in H as [H%elem_of_replicate|H].
    + by destruct H.
    + repeat (apply elem_of_cons in H as [H|H]; [discriminate H|]).
      by apply elem_of_nil in H.
  - vm_compute. lia.
  - reflexivity.
Defined.

(** A NUL character typed in the message ends it: the characters after it
    on the line are read from the console but are not part of the record's
    string. *)
Theorem nul_in_message_cuts_the_text
    (k d : Z) (a : apple_t) (inp dl pre post rest : list ascii) :
  dest a = DEST_EMPTY →
  fgets 64 inp = Some (dl, pre ++ NUL :: post ++ NL :: rest) →
  parse_destination (chomp dl) k = Some d →
  NUL ∉ pre → NL ∉ pre → NL ∉ post →
  (length pre + length post < MAX_TEXT - 2)%nat →
  ∃ logs txt,
    node_body 0 k a inp = (logs, Send (mk_apple d 0 txt), rest) ∧
    c_str txt = pre.
Proof.
  intros He Hget Hparse Hnul Hnl1 Hnl2 Hlen.
  pose proof (node_body_inject k a _ _ _ d He Hget Hparse) as Hb.
  cbv zeta in Hb.
  assert (ask_message (pre ++ NUL :: post ++ NL :: rest) = (pre, rest)) as Hask.
  { unfold ask_message, fgets.
    destruct (pre ++ NUL :: post ++ NL :: rest) eqn:E;
      [by destruct pre|]. rewrite <- E.
    change (pre ++ NUL :: post ++ NL :: rest)
      with (pre ++ (NUL :: post) ++ NL :: rest).
    rewrite app_assoc.
    rewrite read_line_short.
    - rewrite <- !app_assoc. simpl. rewrite c_str_app_nul by done.
      by rewrite chomp_no_nl.
    - rewrite elem_of_app, elem_of_cons. intros [?|[?|?]]; done.
    - rewrite length_app. simpl. unfold MAX_TEXT in *. lia. }
  rewrite Hask in Hb. eexists _, _. split; [exact Hb|].
  apply injected_text; [done|]. unfold MAX_TEXT in *. simpl. lia.
Qed.

Lemma nul_in_message_cuts_the_text_witness :
  ∃ logs txt,
    node_body 0 3 seed (lit "2" ++ NL :: lit "ab" ++ NUL :: lit "cd" ++ [NL])
    = (logs, Send (mk_apple 2 0 txt), []) ∧ c_str txt = lit "ab".
Proof.
  refine (nul_in_message_cuts_the_text 3 2 seed
            (lit "2" ++ NL :: lit "ab" ++ NUL :: lit "cd" ++ [NL])
            (lit "2" ++ [NL]) (lit "ab") (lit "cd") [] _ _ _ _ _ _ _);
    try reflexivity;
    try (intros H; repeat (apply elem_of_cons in H as [H|H]; [discriminate H|]);
         by apply elem_of_nil in H).
  vm_compute. lia.
Defined.

(** [strncpy] and the NUL written at the last index fill a buffer of 1024
    bytes with the string and NULs. *)
Lemma strncpy_fills_the_buffer (old t : list ascii) :
  length old = MAX_TEXT → (length t ≤ MAX_TEXT - 1)%nat →
  <[(MAX_TEXT - 1)%nat := NUL]> (strncpy old t (MAX_TEXT - 1))
  = t ++ replicate (MAX_TEXT - length t) NUL
  ∧ drop 1 (<[0%nat := NUL]> old) = drop 1 old.
Proof.
  intros Hold Hlen. split; [|by destruct old].
  unfold strncpy. rewrite take_app_ge by done. rewrite take_replicate.
  rewrite Nat.min_l by lia.
  assert (∃ c, drop (MAX_TEXT - 1) old = [c]) as [c Hc].
  { destruct (drop (MAX_TEXT - 1) old) as [|c [|c' r]] eqn:E.
    - apply (f_equal length) in E. rewrite length_drop in E.
      unfold MAX_TEXT in *. simpl in E. lia.
    - by exists c.
    - apply (f_equal length) in E. rewrite length_drop in E.
      unfold MAX_TEXT in *. simpl in E. lia. }
  rewrite Hc.
  replace (MAX_TEXT - 1)%nat
    with (length (t ++ replicate (MAX_TEXT - 1 - length t) NUL) + 0)%nat at 1
    by (rewrite length_app, length_replicate; lia).
  rewrite insert_app_r. simpl. rewrite <- app_assoc. f_equal.
  replace (MAX_TEXT - length t)%nat with (S (MAX_TEXT - 1 - length t))
    by (unfold MAX_TEXT in *; lia).
  by rewrite replicate_S_end.
Qed.

Lemma read_line_length n inp : (length (read_line n inp).1 ≤ n)%nat.
Proof.
  revert inp. induction n as [|n IH]; intros [|c r]; simpl; try lia.
  destruct (Ascii.eqb c NL); [simpl; lia|].
  specialize (IH r). destruct (read_line n r) as [l r']. simpl in *. lia.
Qed.

Lemma c_str_length l : (length (c_str l) ≤ length l)%nat.
Proof.
  induction l as [|c l IH]; simpl; [lia|].
  destruct (Ascii.eqb c NUL); simpl; lia.
Qed.

Lemma chomp_length s : (length (chomp s) ≤ length s)%nat.
Proof.
  unfold chomp. destruct (reverse s) as [|c r] eqn:E; [lia|].
  destruct (Ascii.eqb c NL); [|lia].
  apply (f_equal length) in E. rewrite length_reverse in E.
  rewrite length_reverse. simpl in E. lia.
Qed.

Lemma ask_message_length inp :
  (length (ask_message inp).1 ≤ MAX_TEXT - 1)%nat.
Proof.
  unfold ask_message, fgets. destruct inp as [|c r]; [simpl; lia|].
  pose proof (read_line_length (MAX_TEXT - 1) (c :: r)) as Hl.
  destruct (read_line (MAX_TEXT - 1) (c :: r)) as [l r']. cbn [fst] in *.
  pose proof (c_str_length l). pose proof (chomp_length (c_str l)). lia.
Qed.

(** What the Injector sends does not depend on the text the token came back
    with: the record injected holds the line typed and then NULs up to 1024
    bytes, so nothing of an earlier message travels on.  The node that
    delivers it, in contrast, clears the first byte only: the rest of the
    message goes back round the ring behind the NUL. *)
Theorem injection_forgets_delivery_keeps
    (k : Z) (a : apple_t) (inp dl inp1 : list ascii) (d : Z) :
  2 ≤ k ≤ MAX_K → dest a = DEST_EMPTY → length (text a) = MAX_TEXT →
  fgets 64 inp = Some (dl, inp1) →
  parse_destination (chomp dl) k = Some d →
  let t := (ask_message inp1).1 in
  let sent := mk_apple d 0 (t ++ replicate (MAX_TEXT - length t) NUL) in
  node_body 0 k a inp =
  ([LogReturnedEmpty 0; LogAskDest (k - 1); LogAskMessage;
    LogInjecting 0 d (c_str (text sent))],
   Send sent, (ask_message inp1).2) ∧
  (∀ inp',
     node_body d k sent inp' =
     ([LogReceived d 0 (c_str (text sent)); LogProcessed d],
      Send (mk_apple DEST_EMPTY d (NUL :: drop 1 (text sent))), inp')).
Proof.
  intros Hk He Hlen Hget Hparse t sent.
  pose proof (ask_message_length inp1) as Ht. fold t in Ht.
  split.
  - pose proof (node_body_inject k a inp dl inp1 d He Hget Hparse) as Hb.
    cbv zeta in Hb. fold t in Hb.
    rewrite (proj1 (strncpy_fills_the_buffer (text a) t Hlen Ht)) in Hb.
    exact Hb.
  - intros inp'.
    apply parse_destination_sound in Hparse as [_ Hd];
      [|unfold MAX_K, INT_MAX in *; lia].
    rewrite (node_body_deliver d k sent inp') by (done || lia).
    cbn [origin text sent]. do 3 f_equal.
    destruct t as [|c t']; [|done].
    simpl length. by replace (MAX_TEXT - 0)%nat with (S (MAX_TEXT - 1))
      by (unfold MAX_TEXT; lia).
Qed.

Lemma injection_forgets_delivery_keeps_witness :
  node_body 0 3
    (mk_apple DEST_EMPTY 1 (NUL :: lit "ld" ++ replicate (MAX_TEXT - 3) NUL))
    (lit "2" ++ NL :: lit "hi" ++ [NL]) =
  ([LogReturnedEmpty 0; LogAskDest (3 - 1); LogAskMessage;
    LogInjecting 0 2 (lit "hi")],
   Send (mk_apple 2 0 (lit "hi" ++ replicate (MAX_TEXT - 2) NUL)), []).
Proof.
  refine (proj1 (injection_forgets_delivery_keeps 3
            (mk_apple DEST_EMPTY 1
               (NUL :: lit "ld" ++ replicate (MAX_TEXT - 3) NUL))
            (lit "2" ++ NL :: lit "hi" ++ [NL])
            (lit "2" ++ [NL]) (lit "hi" ++ [NL]) 2 _ _ _ _ _)).
  - unfold MAX_K. lia.
  - reflexivity.
  - reflexivity.
  - reflexivity.
  - reflexivity.
Defined.

(** ** A node as a relay *)

Lemma node_body_passes_through id k a inp :
  passes_through id a → ∃ logs, node_body id k a inp = (logs, Send a, inp).
Proof.
  intros [Hne Hrelay]. unfold node_body.
  destruct (Z.eqb_spec (dest a) DEST_EMPTY) as [He|He].
  - destruct Hrelay as [H|H]; [|done].
    destruct (Z.eqb_spec id 0); [done|]. by eexists.
  - destruct (Z.eqb_spec (dest a) id); [done|]. by eexists.
Qed.

Lemma omap_prints {A} (f : event → option A) (logs : list log) :
  (∀ l, f (EvPrint l) = None) → omap f (EvPrint <$> logs) = [].
Proof.
  intros Hf. induction logs as [|l logs IH]; [done|].
  rewrite fmap_cons. simpl. rewrite Hf. exact IH.
Qed.

Lemma omap_one_pass fd fd' a a' (logs : list log) (t : list event) :
  omap record_read
    (EvRead fd a :: (EvPrint <$> logs) ++ EvWrite fd' a' :: t)
  = a :: omap record_read t ∧
  omap record_written
    (EvRead fd a :: (EvPrint <$> logs) ++ EvWrite fd' a' :: t)
  = a' :: omap record_written t.
Proof.
  change (EvRead fd a :: (EvPrint <$> logs) ++ EvWrite fd' a' :: t)
    with ([EvRead fd a] ++ (EvPrint <$> logs) ++ [EvWrite fd' a'] ++ t).
  by rewrite !omap_app, !omap_prints.
Qed.

(** Records that are not for this node leave it as they came and in the
    order they came: with every transfer done by one call, the node writes
    exactly the records it read, one write after each read, touches no
    console input, and then waits in [read] for the next record. *)
Theorem relay_forwards_in_order
    (fuel : nat) (g : globals) (records : list apple_t)
    (m : positive) (n : N) (inp : list ascii) (waits : list Z) :
  stop_requested g = false →
  sizeof_apple ≤ Z.pos m → sizeof_apple ≤ Z.of_N n →
  Forall (passes_through (my_id g)) records →
  (length records < fuel)%nat →
  let w := mk_world inp (replicate (length records) (RdBytes m))
             (replicate (length records) (WrBytes n)) records waits in
  (node_loop fuel g w).2 = Blocked ∧
  omap record_read (node_loop fuel g w).1 = records ∧
  omap record_written (node_loop fuel g w).1 = records.
Proof.
  intros Hs Hm Hn Hall. revert fuel.
  assert (0 < sizeof_apple) as Hsz by (vm_compute; reflexivity).
  induction Hall as [|a records Ha _ IH]; intros fuel Hfuel w.
  - destruct fuel as [|fuel]; [simpl in Hfuel; lia|].
    subst w. simpl. rewrite Hs. simpl. done.
  - destruct fuel as [|fuel]; [simpl in Hfuel; lia|].
    destruct (node_body_passes_through (my_id g) (g_k g) a inp Ha) as [logs Hb].
    assert (∀ rs, read_full (RdBytes m :: rs) false 0 sizeof_apple
                  = Some (0, false, 0 + sizeof_apple, rs)) as Hrd
      by (intros rs; apply (read_full_moves_all [] m rs); simpl; lia).
    assert (∀ ws, write_full (WrBytes n :: ws) false 0 sizeof_apple
                  = Some (0, false, 0 + sizeof_apple, ws)) as Hwr
      by (intros ws; apply (write_full_moves_all [] n ws); simpl; lia).
    subst w. simpl length. simpl replicate.
    erewrite node_loop_send;
      [|exact Hs|apply Hrd|reflexivity|exact Hb|apply Hwr].
    cbn [w_waits].
    replace (set_stop false g) with g
      by (destruct g; simpl in Hs; subst; reflexivity).
    specialize (IH fuel ltac:(simpl in Hfuel; lia)). cbv zeta in IH.
    destruct IH as (Ho & Hr & Hw). cbn [fst snd].
    split; [exact Ho|].
    destruct (omap_one_pass (fd_or (read_fd g)) (fd_or (write_fd g)) a a logs
                (node_loop fuel g
                   (mk_world inp (replicate (length records) (RdBytes m))
                      (replicate (length records) (WrBytes n)) records waits)).1)
      as [-> ->].
    by rewrite Hr, Hw.
Qed.

Lemma relay_forwards_in_order_witness :
  omap record_written
    (node_loop 3 (mk_globals [] 3 (Some (0, RD)) (Some (1, WR)) 1 false)
       (mk_world [] (replicate 2 (RdBytes 1032)) (replicate 2 (WrBytes 1032))
          [mk_apple 2 0 (lit "a"); mk_apple DEST_EMPTY 2 []] [])).1
  = [mk_apple 2 0 (lit "a"); mk_apple DEST_EMPTY 2 []].
Proof.
  refine (proj2 (proj2 (relay_forwards_in_order 3
            (mk_globals [] 3 (Some (0, RD)) (Some (1, WR)) 1 false)
            [mk_apple 2 0 (lit "a"); mk_apple DEST_EMPTY 2 []]
            1032 1032 [] [] _ _ _ _ _))).
  - reflexivity.
  - vm_compute. discriminate.
  - vm_compute. discriminate.
  - repeat constructor; simpl; (discriminate || (left; discriminate)).
  - simpl. lia.
Defined.
